(** * backend/crawler.py: discovery, deduplication and filtering of video records

    A shallow embedding of [backend/crawler.py] and the properties of its
    query generation, its validity check and its collection loop.

    Python values are embedded as follows.
    - A [str] is the list of its Unicode code points ([pystr]); substring
      search, concatenation and the regular-expression class of
      [is_valid_video] all work on code points.
    - A video is the [dict] that the extractor yields: a finite map from
      field names to values ([gmap string value]); [video.get(k)] is [get].
    - A Python [set] of identifiers is a [gset key].
    - An operation that may raise returns a [result]. *)

From Stdlib Require Import ZArith Strings.String Strings.Ascii DecimalString.
From stdpp Require Import base option list strings gmap sets.

Local Open Scope Z_scope.

(** ** Python strings *)

Abbreviation pystr := (list Z).

(** The code points of an ASCII literal. *)
Definition str (s : string) : pystr :=
  (λ a, Z.of_N (N_of_ascii a)) <$> list_ascii_of_string s.

(** ** Exceptions and results *)

Inductive exn := TypeError | AttributeError | OtherException.

Inductive result (A : Type) :=
  | Ok (a : A)
  | Raise (e : exn).
Arguments Ok {A} a.
Arguments Raise {A} e.

#[global] Instance result_ret : MRet result := λ A a, Ok a.

#[global] Instance result_bind : MBind result := λ A B k r,
  match r with
  | Ok a => k a
  | Raise e => Raise e
  end.

(** ** Values and records *)

#[local] Set Warnings "-register-all,-clear-no-such-hyp".

Inductive value :=
  | VNone
  | VInt (n : Z)
  | VStr (s : pystr)
  | VList (l : list value).

Abbreviation video := (gmap string value).

(** [video.get(k)]: the value stored under [k], [None] when the key is
    missing. *)
Definition get (v : video) (k : string) : value := default VNone (v !! k).

(** [video.get(k, d)]. *)
Definition get_default (v : video) (k : string) (d : value) : value :=
  default d (v !! k).

(** ** Constants of the module *)

(** [BLACKLIST_KEYWORDS = ["광고", "협찬"]]. *)
Definition BLACKLIST_KEYWORDS : list pystr :=
  [ [0xAD11; 0xACE0]; [0xD611; 0xCC2C] ].

(** The literal list of rule 4. *)
Definition ALLOWED_CATEGORIES : list pystr :=
  [ str "cooking"; str "how-to & style"; str "food & drink" ].

(** The bounds of the class [[가-힣]] of rule 5. *)
Definition HANGUL_FIRST : Z := 0xAC00.
Definition HANGUL_LAST : Z := 0xD7A3.

(** The default vocabulary ["한식", "중식", "양식"] of [get_search_queries]. *)
Definition FALLBACK_QUERIES : list pystr :=
  [ [0xD55C; 0xC2DD]; [0xC911; 0xC2DD]; [0xC591; 0xC2DD] ].

(** The suffixes [" 레시피"] and [" 만들기"]. *)
Definition SUFFIX_RECIPE : pystr := [0x20; 0xB808; 0xC2DC; 0xD53C].
Definition SUFFIX_MAKING : pystr := [0x20; 0xB9CC; 0xB4E4; 0xAE30].

(** The standalone queries ["간단한 요리"] and ["자취생 요리"]. *)
Definition EXTRA_SIMPLE : pystr := [0xAC04; 0xB2E8; 0xD55C; 0x20; 0xC694; 0xB9AC].
Definition EXTRA_SINGLE : pystr := [0xC790; 0xCDE8; 0xC0DD; 0x20; 0xC694; 0xB9AC].

(** ** Operators used by [is_valid_video] *)

(** [x < n] for an integer literal [n]: only integers compare. *)
Definition lt_int (x : value) (n : Z) : result bool :=
  match x with
  | VInt d => Ok (d <? n)
  | _ => Raise TypeError
  end.

(** [x is None]. *)
Definition is_none (x : value) : bool :=
  match x with VNone => true | _ => false end.

(** [a + b] where the result is used as a [str]. *)
Definition str_add (a b : value) : result pystr :=
  match a, b with
  | VStr s, VStr t => Ok (s ++ t)
  | _, _ => Raise TypeError
  end.

Fixpoint starts_with (kw text : pystr) : bool :=
  match kw, text with
  | [], _ => true
  | _ :: _, [] => false
  | k :: kw', c :: text' => (k =? c) && starts_with kw' text'
  end.

(** [kw in text] on two strings. *)
Fixpoint str_contains (kw text : pystr) : bool :=
  starts_with kw text ||
  match text with
  | [] => false
  | _ :: text' => str_contains kw text'
  end.

(** The loop over [BLACKLIST_KEYWORDS]: [true] when some keyword occurs. *)
Fixpoint has_blacklisted (kws : list pystr) (text : pystr) : bool :=
  match kws with
  | [] => false
  | kw :: kws' => if str_contains kw text then true else has_blacklisted kws' text
  end.

(** [x in l] for a list of strings. *)
Definition str_in (x : pystr) (l : list pystr) : bool := bool_decide (x ∈ l).

(** [for c in category]: the items that iteration yields. A string yields
    its characters, anything but a list or a string is not iterable. *)
Definition iter (x : value) : result (list value) :=
  match x with
  | VList l => Ok l
  | VStr s => Ok ((λ c, VStr [c]) <$> s)
  | _ => Raise TypeError
  end.

(** [re.search('[가-힣]', s)] as a truth value. *)
Definition in_hangul (c : Z) : bool := (HANGUL_FIRST <=? c) && (c <=? HANGUL_LAST).

Definition re_search_hangul (x : value) : result bool :=
  match x with
  | VStr s => Ok (existsb in_hangul s)
  | _ => Raise TypeError
  end.

Section Validator.

(** [str.lower] of the Python runtime. *)
Variable lower : pystr → pystr.

(** [any(c.lower() in [...] for c in items)]: the generator is consumed
    lazily, so the first match ends the scan. *)
Fixpoint any_allowed (items : list value) : result bool :=
  match items with
  | [] => Ok false
  | VStr c :: rest =>
      if str_in (lower c) ALLOWED_CATEGORIES then Ok true else any_allowed rest
  | _ :: _ => Raise AttributeError
  end.

(** [is_valid_video(video)], without its log lines. *)
Definition is_valid_video (v : video) : result bool :=
  let duration := get v "duration" in
  short ← (if is_none duration then Ok true else lt_int duration 60);
  if (short : bool) then Ok false else
  let view_count := get v "view_count" in
  few ← (if is_none view_count then Ok true else lt_int view_count 5000);
  if (few : bool) then Ok false else
  let title := get_default v "title" (VStr []) in
  let description := get_default v "description" (VStr []) in
  head ← str_add title (VStr (str " "));
  combined_text ← str_add (VStr head) description;
  if has_blacklisted BLACKLIST_KEYWORDS combined_text then Ok false else
  let category := get_default v "categories" (VList []) in
  items ← iter category;
  cooking ← any_allowed items;
  if negb cooking then Ok false else
  let channel_title := get_default v "channel" (VStr []) in
  korean ← re_search_hangul channel_title;
  if negb korean then Ok false else
  Ok true.

End Validator.

(** ** Identifiers and the set of crawled identifiers *)

(** The hashable values: what a Python [set] of identifiers can hold. *)
Inductive key :=
  | KNone
  | KInt (n : Z)
  | KStr (s : pystr).

#[global] Instance key_eq_dec : EqDecision key.
Proof. solve_decision. Defined.

#[global] Instance key_countable : Countable key.
Proof.
  refine (inj_countable'
    (λ k, match k with
          | KNone => inl ()
          | KInt n => inr (inl n)
          | KStr s => inr (inr s)
          end)
    (λ x, match x with
          | inl _ => KNone
          | inr (inl n) => KInt n
          | inr (inr s) => KStr s
          end) _).
  by intros [].
Defined.

(** [hash(x)], as [x in crawled_ids] and [crawled_ids.add(x)] need it: a
    list is unhashable. *)
Definition hash_key (x : value) : result key :=
  match x with
  | VNone => Ok KNone
  | VInt n => Ok (KInt n)
  | VStr s => Ok (KStr s)
  | VList _ => Raise TypeError
  end.

(** The truth value of [x] in a condition. *)
Definition truthy (x : value) : bool :=
  match x with
  | VNone => false
  | VInt n => negb (n =? 0)
  | VStr [] => false
  | VStr (_ :: _) => true
  | VList [] => false
  | VList (_ :: _) => true
  end.

(** ** The database session *)

(** What the two queries of the module answer: the [youtube_id] column of
    [Recipe] and the [name] column of [DishType], or an exception. *)
Record db_session := {
  recipe_youtube_ids : result (list key);
  dish_type_names : result (list pystr)
}.

(** [get_crawled_video_ids(db_session)]. *)
Definition get_crawled_video_ids (db : db_session) : gset key :=
  match recipe_youtube_ids db with
  | Ok crawled_ids => list_to_set crawled_ids
  | Raise _ => ∅
  end.

(** The two [extended_queries.add] calls of one loop iteration. *)
Definition add_derived (extended_queries : gset pystr) (query : pystr) : gset pystr :=
  {[ query ++ SUFFIX_MAKING ]} ∪ ({[ query ++ SUFFIX_RECIPE ]} ∪ extended_queries).

(** The set built by [get_search_queries(db_session)]. *)
Definition search_query_set (db : db_session) : gset pystr :=
  let base_queries :=
    match dish_type_names db with
    | Ok names => names
    | Raise _ => FALLBACK_QUERIES
    end in
  let extended_queries := foldl add_derived ∅ base_queries in
  {[ EXTRA_SINGLE ]} ∪ ({[ EXTRA_SIMPLE ]} ∪ extended_queries).

(** [get_search_queries(db_session)]: [list(extended_queries)]. Python fixes
    no order for it; [elements] is one enumeration without repetition. *)
Definition get_search_queries (db : db_session) : list pystr :=
  elements (search_query_set db).

(** ** Fetching *)

(** [f"{n}"] for an integer. *)
Definition decimal (n : Z) : pystr := str (NilZero.string_of_int (Z.to_int n)).

(** [f"ytsearch{max_videos}:{query}"]. *)
Definition search_url (max_videos : Z) (query : pystr) : pystr :=
  str "ytsearch" ++ decimal max_videos ++ str ":" ++ query.

Section Pipeline.

Variable lower : pystr → pystr.

(** [YoutubeDL(ydl_opts).extract_info(url, download=False)] for the
    [playlistend] option and the url given: an exception, [None], or the
    dictionary of the search with its lists. *)
Variable extract_info : Z → pystr → result (option (gmap string (list video))).

(** [get_video_info(query, max_videos)]. [result.get] on [None] raises
    inside the [try] block. *)
Definition get_video_info (query : pystr) (max_videos : Z) : list video :=
  match extract_info max_videos (search_url max_videos query) with
  | Ok (Some result) => default [] (result !! "entries")
  | Ok None => []
  | Raise _ => []
  end.

(** ** The main program *)

(** The body of [for video in videos], on the pair of [crawled_ids] and
    [all_videos_to_process]. *)
Definition collect_video (st : gset key * list video) (v : video)
  : result (gset key * list video) :=
  let video_id := get v "id" in
  if truthy video_id then
    k ← hash_key video_id;
    if bool_decide (k ∉ st.1) then Ok ({[ k ]} ∪ st.1, st.2 ++ [v]) else Ok st
  else Ok st.

Fixpoint for_each {S A} (body : S → A → result S) (st : S) (l : list A) : result S :=
  match l with
  | [] => Ok st
  | x :: l' => st' ← body st x; for_each body st' l'
  end.

(** The body of [for query in search_queries]. *)
Definition collect_query (st : gset key * list video) (query : pystr)
  : result (gset key * list video) :=
  for_each collect_video st (get_video_info query 20).

(** The collection loop. *)
Definition collect (st : gset key * list video) (search_queries : list pystr)
  : result (gset key * list video) :=
  for_each collect_query st search_queries.

(** [[v for v in videos if is_valid_video(v)]]. *)
Fixpoint filter_valid (videos : list video) : result (list video) :=
  match videos with
  | [] => Ok []
  | v :: rest =>
      keep ← is_valid_video lower v;
      kept ← filter_valid rest;
      Ok (if (keep : bool) then v :: kept else kept)
  end.

(** Steps 3 and 4 of the main program, from the identifiers already
    crawled and the queries to [filtered_videos]. *)
Definition filtered_videos (crawled_ids : gset key) (search_queries : list pystr)
  : result (list video) :=
  st ← collect (crawled_ids, []) search_queries;
  filter_valid st.2.

(** Steps 1 to 4 on a database session. *)
Definition crawl (db : db_session) : result (list video) :=
  filtered_videos (get_crawled_video_ids db) (get_search_queries db).

End Pipeline.

(** ** Writing the output file *)

(** What can go wrong in [with open(path, 'w') as f: json.dump(batch, f)]:
    [open] itself raises, or an exception ends the block after [n]
    characters of the document have reached the file. *)
Inductive fault :=
  | NoFault
  | OpenFails
  | WriteFails (n : nat).

Inductive exit_status := ExitSuccess | ExitFailure.

(** The [with] block on the previous content of the file ([None]: no such
    file) and the document that [json.dump] produces for the batch. Mode
    ['w'] empties the file when it is opened and the document is then
    written from its start; no exception is handled, so any exception ends
    the program. *)
Definition emit (old : option pystr) (doc : pystr) (f : fault)
  : exit_status * option pystr :=
  match f with
  | NoFault => (ExitSuccess, Some doc)
  | OpenFails => (ExitFailure, old)
  | WriteFails n => (ExitFailure, Some (take n doc))
  end.

Section Main.

Variable lower : pystr → pystr.
Variable extract_info : Z → pystr → result (option (gmap string (list video))).

(** [json.dump(batch, f, ensure_ascii=False, indent=4)]: the text written. *)
Variable json_dump : list video → pystr.

(** The main program on a database session, the previous content of the
    output file and the fault met when writing it: the exit status and the
    content of the file. *)
Definition main (db : db_session) (old : option pystr) (f : fault)
  : exit_status * option pystr :=
  match crawl lower extract_info db with
  | Ok batch => emit old (json_dump batch) f
  | Raise _ => (ExitFailure, old)
  end.

End Main.

(** ** Candidate records and the five rules, as the specification words them *)

Definition opt_int (o : option value) : bool :=
  match o with
  | None | Some VNone | Some (VInt _) => true
  | Some _ => false
  end.

Definition opt_str (o : option value) : bool :=
  match o with
  | None | Some (VStr _) => true
  | Some _ => false
  end.

Definition is_str (x : value) : bool :=
  match x with VStr _ => true | _ => false end.

Definition opt_labels (o : option value) : bool :=
  match o with
  | None => true
  | Some (VList l) => forallb is_str l
  | Some _ => false
  end.

(** A candidate record of the data model: identifier, title, description
    and channel name are strings, duration and view count are integers that
    may be absent, the category labels are strings. *)
Definition candidate_record (v : video) : bool :=
  opt_str (v !! "id") && opt_str (v !! "title") && opt_str (v !! "description")
  && opt_int (v !! "duration") && opt_int (v !! "view_count")
  && opt_labels (v !! "categories") && opt_str (v !! "channel").

(** An integer field that is present. *)
Definition field_int (v : video) (k : string) : option Z :=
  match v !! k with
  | Some (VInt n) => Some n
  | _ => None
  end.

(** A text field; a record without the field has the empty text. *)
Definition field_str (v : video) (k : string) : option pystr :=
  match v !! k with
  | None => Some []
  | Some (VStr s) => Some s
  | Some _ => None
  end.

Definition as_str (x : value) : option pystr :=
  match x with VStr s => Some s | _ => None end.

(** The category labels; a record without the field has none. *)
Definition field_labels (v : video) : option (list pystr) :=
  match v !! "categories" with
  | None => Some []
  | Some (VList l) => mapM as_str l
  | Some _ => None
  end.

Definition is_substring (kw text : pystr) : Prop :=
  ∃ pre suf, text = pre ++ kw ++ suf.

Definition duration_rule (v : video) : Prop :=
  ∃ d, field_int v "duration" = Some d ∧ 60 ≤ d.

Definition popularity_rule (v : video) : Prop :=
  ∃ n, field_int v "view_count" = Some n ∧ 5000 ≤ n.

Definition keyword_rule (v : video) : Prop :=
  ∃ title description,
    field_str v "title" = Some title ∧
    field_str v "description" = Some description ∧
    ∀ kw, kw ∈ BLACKLIST_KEYWORDS →
      ¬ is_substring kw (title ++ str " " ++ description).

Definition locale_rule (v : video) : Prop :=
  ∃ channel,
    field_str v "channel" = Some channel ∧
    ∃ c, c ∈ channel ∧ HANGUL_FIRST ≤ c ≤ HANGUL_LAST.

Section Rules.

Variable lower : pystr → pystr.

(** Two labels that differ in case only. *)
Definition same_ignoring_case (a b : pystr) : Prop := lower a = lower b.

Definition category_rule (v : video) : Prop :=
  ∃ labels,
    field_labels v = Some labels ∧
    ∃ c a, c ∈ labels ∧ a ∈ ALLOWED_CATEGORIES ∧ same_ignoring_case c a.

Definition all_rules (v : video) : Prop :=
  duration_rule v ∧ popularity_rule v ∧ keyword_rule v ∧
  category_rule v ∧ locale_rule v.

End Rules.

(** ** Auxiliary predicates on the program *)

Section Checks.

Variable lower : pystr → pystr.

(** The checks of [is_valid_video] that must all succeed for [True]. *)
Definition passes (v : video) : Prop :=
  ∃ d n title description items channel,
    get v "duration" = VInt d ∧ 60 ≤ d ∧
    get v "view_count" = VInt n ∧ 5000 ≤ n ∧
    get_default v "title" (VStr []) = VStr title ∧
    get_default v "description" (VStr []) = VStr description ∧
    has_blacklisted BLACKLIST_KEYWORDS (title ++ str " " ++ description) = false ∧
    iter (get_default v "categories" (VList [])) = Ok items ∧
    any_allowed lower items = Ok true ∧
    get_default v "channel" (VStr []) = VStr channel ∧
    existsb in_hangul channel = true.

End Checks.

(** The identifier of a record, as the collection loop reads it. *)
Definition video_id (v : video) : value := get v "id".

(** A record that the collection loop passes over on the set [seen]: its
    identifier is falsy, or hashable and in the set. *)
Definition covered (seen : gset key) (v : video) : Prop :=
  truthy (video_id v) = true →
  ∃ k, hash_key (video_id v) = Ok k ∧ k ∈ seen.

(** The state of the collection loop relative to the identifiers it
    started from: the collected records have pairwise different, truthy
    and hashable identifiers, none of which was in [seed], and the set
    holds [seed] and the identifiers of the collected records, nothing
    else. *)
Definition collected_from (seed : gset key) (st : gset key * list video) : Prop :=
  seed ⊆ st.1 ∧
  NoDup (video_id <$> st.2) ∧
  (∀ v, v ∈ st.2 →
     truthy (video_id v) = true ∧
     ∃ k, hash_key (video_id v) = Ok k ∧ k ∈ st.1 ∧ k ∉ seed) ∧
  (∀ k, k ∈ st.1 → k ∈ seed ∨ ∃ v, v ∈ st.2 ∧ hash_key (video_id v) = Ok k).

Section Failing.

Variable extract_info : Z → pystr → result (option (gmap string (list video))).

(** The extraction raises on the query, with the cap of the main program. *)
Definition extraction_raises (query : pystr) : bool :=
  match extract_info 20 (search_url 20 query) with
  | Raise _ => true
  | Ok _ => false
  end.

End Failing.

(** The queries that the fallback vocabulary and the two fixed queries give. *)
Definition contains_fallback_queries (queries : list pystr) : Prop :=
  (∀ q, q ∈ FALLBACK_QUERIES →
     q ++ SUFFIX_RECIPE ∈ queries ∧ q ++ SUFFIX_MAKING ∈ queries) ∧
  EXTRA_SIMPLE ∈ queries ∧ EXTRA_SINGLE ∈ queries.

(** The vocabulary query raises or answers no row. *)
Definition vocabulary_fails_or_empty (db : db_session) : Prop :=
  (∃ e, dish_type_names db = Raise e) ∨ dish_type_names db = Ok [].

(** After a failed run the output file is complete or as it was. *)
Definition written_or_untouched (old : option pystr) (doc : pystr)
    (r : exit_status * option pystr) : Prop :=
  r.1 = ExitFailure ∧ (r.2 = Some doc ∨ r.2 = old).

(** ** Sample data *)

(** ASCII case folding, the restriction of [str.lower] to ASCII text. *)
Definition ascii_lower (s : pystr) : pystr :=
  (λ c, if (65 <=? c) && (c <=? 90) then c + 32 else c) <$> s.

(** A record that meets the five rules, at both numeric floors. *)
Definition good_video : video :=
  <["id" := VStr (str "v1")]> (
  <["title" := VStr (str "kimchi stew")]> (
  <["description" := VStr (str "home cooking")]> (
  <["duration" := VInt 60]> (
  <["view_count" := VInt 5000]> (
  <["categories" := VList [VStr (str "Howto"); VStr (str "Cooking")]]> (
  <["channel" := VStr [0xD55C; 0xC2DD]]> ∅)))))).

Definition short_video : video := <["duration" := VInt 59]> good_video.

Definition unpopular_video : video :=
  <["id" := VStr (str "v3")]> (<["view_count" := VInt 100]> good_video).

Definition uncategorised_video : video := delete "categories" good_video.

Definition blank_video : video := <["id" := VStr []]> good_video.

Definition second_video : video := <["id" := VStr (str "v2")]> good_video.

(** A record that the database already knows. *)
Definition known_video : video := <["id" := VStr (str "v0")]> good_video.

(** The queries ["한식 레시피"] and ["중식 레시피"]. *)
Definition query_korean : pystr := [0xD55C; 0xC2DD] ++ SUFFIX_RECIPE.
Definition query_chinese : pystr := [0xC911; 0xC2DD] ++ SUFFIX_RECIPE.

(** An extractor that fails on one query, answers six records on another
    and answers a dictionary without entries on every other query. *)
Definition sample_extract (playlistend : Z) (url : pystr)
  : result (option (gmap string (list video))) :=
  if bool_decide (url = search_url 20 query_chinese) then Raise OtherException
  else if bool_decide (url = search_url 20 query_korean) then
    Ok (Some {[ "entries" :=
      [good_video; unpopular_video; blank_video; good_video; second_video;
       known_video] ]})
  else Ok (Some ∅).

(** A database whose history holds one identifier and whose vocabulary
    query raises. *)
Definition sample_db : db_session :=
  {| recipe_youtube_ids := Ok [KStr (str "v0")];
     dish_type_names := Raise OtherException |}.

(** A database without history and with an empty vocabulary. *)
Definition empty_db : db_session :=
  {| recipe_youtube_ids := Ok []; dish_type_names := Ok [] |}.

(** Where the collection loop on [sample_db] and [sample_extract] ends. *)
Definition first_pass : gset key * list video :=
  ({[ KStr (str "v0"); KStr (str "v1"); KStr (str "v2"); KStr (str "v3") ]},
   [good_video; unpopular_video; second_video]).

(** The document of a batch of one record with the field [id] alone, as
    [json.dump] with [indent=4] lays it out; 10 is the line feed and 34 the
    double quote. *)
Definition sample_doc : pystr :=
  str "[" ++ [10] ++ str "    {" ++ [10] ++
  str "        " ++ [34] ++ str "id" ++ [34] ++ str ": " ++ [34] ++ str "v1" ++ [34] ++ [10] ++
  str "    }" ++ [10] ++ str "]".

(** ** Further notions used in the properties *)

#[global] Instance exn_eq_dec : EqDecision exn.
Proof. solve_decision. Defined.

#[global] Instance result_eq_dec {A} `{EqDecision A} : EqDecision (result A).
Proof. solve_decision. Defined.

Section Fetched.

Variable extract_info : Z → pystr → result (option (gmap string (list video))).

(** The records that the loop over the queries meets, in its order. *)
Definition fetched (search_queries : list pystr) : list video :=
  search_queries ≫= (λ query, get_video_info extract_info query 20).

End Fetched.

(** An identifier on which the membership test raises: a non-empty list. *)
Definition unhashable_id (v : video) : Prop :=
  ∃ x l, video_id v = VList (x :: l).

(** The keys that [is_valid_video] reads. *)
Definition VALIDITY_KEYS : list string :=
  ["duration"; "view_count"; "title"; "description"; "categories"; "channel"].

(** A database whose vocabulary repeats a term. *)
Definition vocabulary_db : db_session :=
  {| recipe_youtube_ids := Ok [];
     dish_type_names := Ok [[0xD55C; 0xC2DD]; [0xC591; 0xC2DD]; [0xD55C; 0xC2DD]] |}.

(** The same vocabulary without the repetition and in another order. *)
Definition vocabulary_db' : db_session :=
  {| recipe_youtube_ids := Ok [];
     dish_type_names := Ok [[0xC591; 0xC2DD]; [0xD55C; 0xC2DD]] |}.

(** Records outside the data model: each passes the checks before its
    odd field and fails at an earlier one. *)
Definition odd_title_video : video := <["title" := VInt 5]> unpopular_video.

Definition sponsored_video : video :=
  <["categories" := VInt 1]> (<["description" := VStr [0xAD11; 0xACE0]]> good_video).

Definition music_video : video :=
  <["channel" := VNone]> (<["categories" := VList [VStr (str "Music")]]> good_video).

(** A channel name written in Hangul compatibility jamo only. *)
Definition jamo_video : video := <["channel" := VStr [0x314B; 0x314B]]> good_video.

(** The category given as one string instead of a list. *)
Definition flat_category_video : video :=
  <["categories" := VStr (str "Cooking")]> good_video.

(** A record whose identifier is a list. *)
Definition list_id_video : video := <["id" := VList [VInt 1]]> good_video.

(** An extractor that answers that record on every query. *)
Definition bad_extract (playlistend : Z) (url : pystr)
  : result (option (gmap string (list video))) :=
  Ok (Some {[ "entries" := [list_id_video] ]}).

(** A valid record with the identifier of [unpopular_video]. *)
Definition popular_again : video := <["id" := VStr (str "v3")]> good_video.

(** An extractor that answers the invalid record first. *)
Definition shadow_extract (playlistend : Z) (url : pystr)
  : result (option (gmap string (list video))) :=
  if bool_decide (url = search_url 20 query_korean) then
    Ok (Some {[ "entries" := [unpopular_video; popular_again; good_video] ]})
  else Ok None.

(* ------------------------------------------------------------------ *)
(** * Properties *)

(** ** Strings *)

Lemma starts_with_spec kw text :
  starts_with kw text = true ↔ ∃ suf, text = kw ++ suf.
Proof.
  revert text. induction kw as [|k kw IH]; intros text; simpl.
  - split; [eauto | done].
  - destruct text as [|c text].
    + split; [done | intros [suf Hs]; discriminate].
    + rewrite andb_true_iff, IH, Z.eqb_eq. split.
      * intros [-> [suf ->]]. eauto.
      * intros [suf Hs]. injection Hs as -> ->. eauto.
Qed.

Lemma str_contains_spec kw text :
  str_contains kw text = true ↔ is_substring kw text.
Proof.
  unfold is_substring. induction text as [|c text IH].
  - cbn [str_contains]. rewrite orb_false_r, starts_with_spec. split.
    + intros [suf Hs]. by exists [], suf.
    + intros (pre & suf & Hs). destruct pre; [by exists suf | discriminate].
  - cbn [str_contains]. rewrite orb_true_iff, starts_with_spec, IH. split.
    + intros [[suf Hs] | (pre & suf & Hs)].
      * by exists [], suf.
      * exists (c :: pre), suf. by rewrite Hs.
    + intros (pre & suf & Hs). destruct pre as [|p pre].
      * left. by exists suf.
      * right. injection Hs as _ Hs. by exists pre, suf.
Qed.

Lemma has_blacklisted_spec kws text :
  has_blacklisted kws text = false ↔ ∀ kw, kw ∈ kws → ¬ is_substring kw text.
Proof.
  induction kws as [|kw kws IH]; simpl.
  - split; [|done]. intros _ kw Hin. by apply not_elem_of_nil in Hin.
  - destruct (str_contains kw text) eqn:Hc.
    + split; [done|]. intros H. exfalso.
      apply (H kw); [left | by apply str_contains_spec].
    + rewrite IH. split.
      * intros H kw' [->|Hin]%elem_of_cons; [|by apply H].
        rewrite <- str_contains_spec. congruence.
      * intros H kw' Hin. apply H. by right.
Qed.

Lemma existsb_in_hangul s :
  existsb in_hangul s = true ↔ ∃ c, c ∈ s ∧ HANGUL_FIRST ≤ c ≤ HANGUL_LAST.
Proof.
  rewrite existsb_exists. unfold in_hangul. split.
  - intros (c & Hin & Hc). exists c. rewrite list_elem_of_In. split; [done|lia].
  - intros (c & Hin & Hc). exists c. rewrite <- list_elem_of_In. split; [done|lia].
Qed.

(** ** The validity check *)

Lemma field_int_get v k n : field_int v k = Some n ↔ get v k = VInt n.
Proof.
  unfold field_int, get. destruct (v !! k) as [[]|]; simpl; split; congruence.
Qed.

Lemma field_str_get v k s :
  field_str v k = Some s ↔ get_default v k (VStr []) = VStr s.
Proof.
  unfold field_str, get_default.
  destruct (v !! k) as [[]|]; simpl; split; congruence.
Qed.

Lemma typed_labels l :
  forallb is_str l = true → ∃ labels, mapM as_str l = Some labels.
Proof.
  induction l as [|x l IH]; simpl; [by exists []|].
  intros [Hx Hl]%andb_true_iff. destruct (IH Hl) as [labels Hlabels].
  destruct x; try discriminate. exists (s :: labels).
  cbn. by rewrite Hlabels.
Qed.

Section ValidatorFacts.

Variable lower : pystr → pystr.

#[local] Arguments has_blacklisted : simpl never.
#[local] Arguments str : simpl never.

Lemma any_allowed_labels l labels :
  mapM as_str l = Some labels →
  any_allowed lower l
  = Ok (existsb (λ c, str_in (lower c) ALLOWED_CATEGORIES) labels).
Proof.
  rewrite mapM_Some. induction 1 as [|x c l labels Hx _ IH]; [done|].
  destruct x; try discriminate. injection Hx as ->. simpl.
  destruct (str_in (lower c) ALLOWED_CATEGORIES); [done | exact IH].
Qed.

Lemma any_allowed_true l :
  any_allowed lower l = Ok true →
  ∃ c, VStr c ∈ l ∧ lower c ∈ ALLOWED_CATEGORIES.
Proof.
  induction l as [|x l IH]; simpl; [discriminate|].
  destruct x; try discriminate.
  destruct (str_in (lower s) ALLOWED_CATEGORIES) eqn:Hin.
  - intros _. exists s. split; [left | by apply bool_decide_eq_true in Hin].
  - intros (c & Hc & Hl)%IH. exists c. split; [by right | done].
Qed.

Lemma is_valid_video_true v :
  is_valid_video lower v = Ok true ↔ passes lower v.
Proof.
  unfold is_valid_video, passes. split.
  - destruct (get v "duration") as [|d| |]; simpl; try discriminate.
    destruct (d <? 60) eqn:Hd; simpl; [discriminate|].
    destruct (get v "view_count") as [|n| |]; simpl; try discriminate.
    destruct (n <? 5000) eqn:Hn; simpl; [discriminate|].
    destruct (get_default v "title" _) as [| |title|]; simpl; try discriminate.
    destruct (get_default v "description" _) as [| |description|];
      simpl; try discriminate.
    rewrite <- app_assoc.
    destruct (has_blacklisted _ _) eqn:Hb; [discriminate|].
    destruct (iter _) as [items|]; simpl; [|discriminate].
    destruct (any_allowed lower items) as [[]|] eqn:Ha; simpl; try discriminate.
    destruct (get_default v "channel" _) as [| |channel|]; simpl; try discriminate.
    destruct (existsb in_hangul channel) eqn:Hk; simpl; [|discriminate].
    intros _. apply Z.ltb_ge in Hd, Hn.
    exists d, n, title, description, items, channel. by repeat split.
  - intros (d & n & title & description & items & channel & -> & Hd & ->
            & Hn & -> & -> & Hb & -> & Ha & -> & Hk). simpl.
    apply Z.ltb_ge in Hd, Hn. rewrite Hd, Hn. simpl.
    rewrite <- app_assoc, Hb. simpl. rewrite Ha. simpl. by rewrite Hk.
Qed.

Lemma is_valid_video_total v :
  candidate_record v = true → ∃ b, is_valid_video lower v = Ok b.
Proof.
  unfold candidate_record. intros Ht.
  repeat (apply andb_true_iff in Ht as [Ht ?]).
  unfold is_valid_video, get, get_default.
  destruct (v !! "duration") as [[|d| |]|]; try done; simpl; try (by eexists).
  destruct (d <? 60); simpl; [by eexists|].
  destruct (v !! "view_count") as [[|n| |]|]; try done; simpl; try (by eexists).
  destruct (n <? 5000); simpl; [by eexists|].
  assert (∃ title, default (VStr []) (v !! "title") = VStr title) as [title ->].
  { destruct (v !! "title") as [[]|]; try done; by eexists. }
  assert (∃ description,
    default (VStr []) (v !! "description") = VStr description)
    as [description ->].
  { destruct (v !! "description") as [[]|]; try done; by eexists. }
  simpl. destruct (has_blacklisted _ _); [by eexists|].
  assert (∃ items labels,
    default (VList []) (v !! "categories") = VList items ∧
    mapM as_str items = Some labels) as (items & labels & -> & Hl).
  { destruct (v !! "categories") as [[| | |l]|]; try done; simpl.
    - destruct (typed_labels l) as [labels Hl]; [done|]. by exists l, labels.
    - by exists [], []. }
  simpl. rewrite (any_allowed_labels _ _ Hl). simpl.
  destruct (existsb _ labels); simpl; [|by eexists].
  assert (∃ channel, default (VStr []) (v !! "channel") = VStr channel)
    as [channel ->].
  { destruct (v !! "channel") as [[]|]; try done; by eexists. }
  simpl. destruct (existsb in_hangul channel); by eexists.
Qed.

Lemma labels_elem l labels c :
  mapM as_str l = Some labels → VStr c ∈ l ↔ c ∈ labels.
Proof.
  rewrite mapM_Some. induction 1 as [|x y l labels Hx _ IH].
  - split; intros H; by apply not_elem_of_nil in H.
  - destruct x; try discriminate. injection Hx as ->.
    rewrite !elem_of_cons, IH. split; intros [H|H]; auto; left; congruence.
Qed.

Hypothesis lower_allowed : ∀ a, a ∈ ALLOWED_CATEGORIES → lower a = a.

Lemma category_rule_scan v :
  category_rule lower v →
  ∃ items, iter (get_default v "categories" (VList [])) = Ok items
           ∧ any_allowed lower items = Ok true.
Proof.
  intros (labels & Hf & c & a & Hc & Ha & Hca).
  unfold field_labels in Hf. unfold get_default.
  destruct (v !! "categories") as [[| | |l]|]; try discriminate; simpl.
  - exists l. split; [done|]. rewrite (any_allowed_labels _ _ Hf).
    f_equal. apply existsb_exists. exists c. split.
    + by apply list_elem_of_In.
    + apply bool_decide_eq_true. unfold same_ignoring_case in Hca.
      by rewrite Hca, (lower_allowed a Ha).
  - injection Hf as <-. by apply not_elem_of_nil in Hc.
Qed.

Lemma scan_category_rule v items :
  opt_labels (v !! "categories") = true →
  iter (get_default v "categories" (VList [])) = Ok items →
  any_allowed lower items = Ok true →
  category_rule lower v.
Proof.
  unfold get_default, category_rule, field_labels.
  destruct (v !! "categories") as [[| | |l]|]; try done; simpl.
  - intros Ht [= <-] (c & Hc & Hin)%any_allowed_true.
    destruct (typed_labels l Ht) as [labels Hl]. exists labels.
    split; [done|]. exists c, (lower c). split; [by apply (labels_elem l)|].
    split; [done|]. unfold same_ignoring_case. by rewrite (lower_allowed _ Hin).
  - intros _ [= <-]. discriminate.
Qed.

Lemma all_rules_passes v : all_rules lower v → passes lower v.
Proof.
  intros ((d & Hd & Hd60) & (n & Hn & Hn5000) & (title & description & Ht & Hde & Hkw)
          & Hcat & (channel & Hch & Hk)).
  destruct (category_rule_scan v Hcat) as (items & Hiter & Hany).
  exists d, n, title, description, items, channel.
  rewrite <- !field_int_get, <- !field_str_get, has_blacklisted_spec,
    existsb_in_hangul. by repeat split.
Qed.

Lemma passes_all_rules v :
  candidate_record v = true → passes lower v → all_rules lower v.
Proof.
  intros Ht (d & n & title & description & items & channel & Hd & Hd60 & Hn
             & Hn5000 & Hti & Hde & Hb & Hiter & Hany & Hch & Hk).
  unfold candidate_record in Ht. repeat (apply andb_true_iff in Ht as [Ht ?]).
  rewrite <- field_int_get in Hd, Hn. rewrite <- field_str_get in Hti, Hde, Hch.
  rewrite has_blacklisted_spec in Hb. rewrite existsb_in_hangul in Hk.
  repeat split.
  - by exists d.
  - by exists n.
  - by exists title, description.
  - by eapply scan_category_rule.
  - by exists channel.
Qed.

(** C1. On every candidate record [is_valid_video] returns, and it returns
    [True] exactly when the five rules hold together: duration present and
    at least 60, view count present and at least 5000, no blacklisted
    keyword inside title, space, description, some category label equal to
    an allowed one up to case, and some character of the channel name in
    the Hangul range; it returns [False] exactly when they do not. *)
Theorem is_valid_video_iff_all_rules v :
  candidate_record v = true →
  (is_valid_video lower v = Ok true ↔ all_rules lower v) ∧
  (is_valid_video lower v = Ok false ↔ ¬ all_rules lower v).
Proof.
  intros Ht.
  assert (is_valid_video lower v = Ok true ↔ all_rules lower v) as Hiff.
  { rewrite is_valid_video_true. split.
    - by apply passes_all_rules.
    - apply all_rules_passes. }
  split; [done|]. destruct (is_valid_video_total v Ht) as [[] Hb].
  - split; [congruence|]. intros Hn. exfalso. by apply Hn, Hiff.
  - split; [|done]. intros _ Hr. apply Hiff in Hr. congruence.
Qed.

(** C4. A record whose duration is missing, [None] or below 60 is rejected
    whatever its other fields hold; a record whose duration is exactly 60
    and which meets the other four rules is accepted. *)
Theorem duration_floor v :
  (get v "duration" = VNone ∨ (∃ d, get v "duration" = VInt d ∧ d < 60) →
   is_valid_video lower v = Ok false) ∧
  (get v "duration" = VInt 60 →
   popularity_rule v → keyword_rule v → category_rule lower v → locale_rule v →
   is_valid_video lower v = Ok true).
Proof.
  split.
  - unfold is_valid_video. intros [-> | (d & -> & Hd)]; [done|]. simpl.
    apply Z.ltb_lt in Hd. by rewrite Hd.
  - intros Hd Hp Hk Hc Hl. apply is_valid_video_true, all_rules_passes.
    repeat split; try done. exists 60. by rewrite field_int_get.
Qed.

(** C5. A candidate record whose view count is missing, [None] or below
    5000 is rejected; a record whose view count is exactly 5000 and which
    meets the other four rules is accepted. *)
Theorem popularity_floor v :
  (candidate_record v = true →
   get v "view_count" = VNone ∨ (∃ n, get v "view_count" = VInt n ∧ n < 5000) →
   is_valid_video lower v = Ok false) ∧
  (get v "view_count" = VInt 5000 →
   duration_rule v → keyword_rule v → category_rule lower v → locale_rule v →
   is_valid_video lower v = Ok true).
Proof.
  split.
  - intros Ht Hv. destruct (is_valid_video_total v Ht) as [[] Hb]; [|done].
    apply is_valid_video_true in Hb as (d & n & ? & ? & ? & ? & _ & _ & Hn & Hn5000 & _).
    destruct Hv as [Hv | (n' & Hv & Hlt)]; rewrite Hv in Hn; [done|].
    injection Hn as ->. lia.
  - intros Hv Hd Hk Hc Hl. apply is_valid_video_true, all_rules_passes.
    repeat split; try done. exists 5000. by rewrite field_int_get.
Qed.

End ValidatorFacts.

Section MissingCategories.

Variable lower : pystr → pystr.

(** C10. A candidate record without the [categories] key is checked as the
    same record with an empty list under that key would be, and it is
    rejected. *)
Theorem missing_categories_rejected v :
  candidate_record v = true →
  v !! "categories" = None →
  is_valid_video lower v = is_valid_video lower (<["categories" := VList []]> v) ∧
  is_valid_video lower v = Ok false.
Proof.
  intros Ht Hc. split.
  - unfold is_valid_video, get, get_default.
    rewrite lookup_insert_eq, !lookup_insert_ne by done. by rewrite Hc.
  - destruct (is_valid_video_total lower v Ht) as [[] Hb]; [|done].
    apply is_valid_video_true in Hb
      as (? & ? & ? & ? & items & ? & _ & _ & _ & _ & _ & _ & _ & Hi & Ha & _).
    unfold get_default in Hi. rewrite Hc in Hi. injection Hi as <-. discriminate.
Qed.

End MissingCategories.

(** ** Query generation *)

Lemma elem_of_derived names s q :
  q ∈ foldl add_derived s names ↔
  q ∈ s ∨ ∃ n, n ∈ names ∧ (q = n ++ SUFFIX_RECIPE ∨ q = n ++ SUFFIX_MAKING).
Proof.
  revert s. induction names as [|n names IH]; intros s; simpl.
  - split; [by left|]. intros [H | (n & Hn & _)]; [done|].
    by apply not_elem_of_nil in Hn.
  - rewrite IH. unfold add_derived. split.
    + intros [H | (n' & Hn' & Hq)].
      * apply elem_of_union in H as [H|H];
          [|apply elem_of_union in H as [H|H]].
        -- apply elem_of_singleton in H. right. exists n. split; [left|by right].
        -- apply elem_of_singleton in H. right. exists n. split; [left|by left].
        -- by left.
      * right. exists n'. split; [by right | done].
    + clear IH. intros [H | (n' & [-> | Hn']%elem_of_cons & Hq)].
      * left. set_solver.
      * left. destruct Hq as [-> | ->]; set_solver.
      * right. by exists n'.
Qed.

Lemma elem_of_search_queries db q :
  q ∈ get_search_queries db ↔
  q = EXTRA_SINGLE ∨ q = EXTRA_SIMPLE ∨
  ∃ n, n ∈ match dish_type_names db with
           | Ok names => names
           | Raise _ => FALLBACK_QUERIES
           end
       ∧ (q = n ++ SUFFIX_RECIPE ∨ q = n ++ SUFFIX_MAKING).
Proof.
  unfold get_search_queries, search_query_set.
  rewrite elem_of_elements, !elem_of_union, !elem_of_singleton, elem_of_derived.
  split; [intros [?|[?|[H|?]]] | intros [?|[?|?]]]; auto.
  by apply not_elem_of_empty in H.
Qed.

(** C3 (amended). When the vocabulary query raises, the fallback vocabulary
    of three terms takes its place and the result holds, for each of the
    three terms, its two suffix-derived queries, and the two fixed queries.
    When the vocabulary query answers no row, nothing is substituted and
    the result holds the two fixed queries only. *)
Theorem fallback_on_failure_only db :
  ((∃ e, dish_type_names db = Raise e) →
   contains_fallback_queries (get_search_queries db)) ∧
  (dish_type_names db = Ok [] →
   ∀ q, q ∈ get_search_queries db ↔ q = EXTRA_SIMPLE ∨ q = EXTRA_SINGLE).
Proof.
  split.
  - intros [e He]. unfold contains_fallback_queries.
    setoid_rewrite elem_of_search_queries. rewrite He.
    split; [|by auto]. intros q Hq. split; right; right; exists q; auto.
  - intros He q. rewrite elem_of_search_queries, He. split.
    + intros [?|[?|(n & Hn & _)]]; auto. by apply not_elem_of_nil in Hn.
    + intros [?|?]; auto.
Qed.

(** ** The collection loop *)

(** An invariant of the loop body holds after the loop. *)
Lemma for_each_invariant {S A} (P : S → Prop) (body : S → A → result S) l :
  (∀ st x st', x ∈ l → P st → body st x = Ok st' → P st') →
  ∀ st st', P st → for_each body st l = Ok st' → P st'.
Proof.
  induction l as [|x l IH]; intros Hbody st st' HP; simpl.
  - by intros [= <-].
  - destruct (body st x) as [st1|e] eqn:Hx; simpl; [|done].
    apply IH.
    + intros ????. apply Hbody. by right.
    + eapply Hbody; [left | done..].
Qed.

Section PipelineFacts.

Variable lower : pystr → pystr.
Variable extract_info : Z → pystr → result (option (gmap string (list video))).

#[local] Abbreviation get_video_info := (get_video_info extract_info).
#[local] Abbreviation collect_query := (collect_query extract_info).
#[local] Abbreviation collect := (collect extract_info).
#[local] Abbreviation filtered_videos := (filtered_videos lower extract_info).
#[local] Abbreviation crawl := (crawl lower extract_info).

(** The three ways out of the loop body. *)
Lemma collect_video_cases st v st' :
  collect_video st v = Ok st' →
  (truthy (video_id v) = false ∧ st' = st) ∨
  (∃ k, truthy (video_id v) = true ∧ hash_key (video_id v) = Ok k ∧
        k ∈ (st.1) ∧ st' = st) ∨
  (∃ k, truthy (video_id v) = true ∧ hash_key (video_id v) = Ok k ∧
        (k ∉ st.1) ∧ st' = ({[ k ]} ∪ st.1, st.2 ++ [v])).
Proof.
  unfold collect_video, video_id. destruct (truthy (get v "id")).
  - destruct (hash_key (get v "id")) as [k|e]; simpl; [|done].
    case_bool_decide as Hk; intros [= <-].
    + right. right. by exists k.
    + right. left. exists k. repeat split; try done.
  - intros [= <-]. by left.
Qed.

Lemma collect_video_skip st v :
  covered st.1 v → collect_video st v = Ok st.
Proof.
  unfold covered, collect_video, video_id. destruct (truthy (get v "id")).
  - intros (k & -> & Hk); [done|]. simpl. by rewrite bool_decide_eq_false_2 by auto.
  - done.
Qed.

Lemma collect_video_invariant seed st v st' :
  collected_from seed st → collect_video st v = Ok st' → collected_from seed st'.
Proof.
  intros (Hseed & Hnd & Hvs & Hks) Hstep.
  destruct (collect_video_cases _ _ _ Hstep)
    as [[_ ->] | [(k & _ & _ & _ & ->) | (k & Ht & Hk & Hnew & ->)]]; try done.
  unfold collected_from. simpl. split; [|split; [|split]].
  - set_solver.
  - rewrite fmap_app. apply NoDup_app. split; [done|]. split.
    + intros x (v' & -> & Hv')%list_elem_of_fmap Hx.
      apply list_elem_of_singleton in Hx.
      destruct (Hvs v' Hv') as (_ & k' & Hk' & Hin & _).
      rewrite Hx, Hk in Hk'. injection Hk' as <-. done.
    + apply NoDup_singleton.
  - intros v' [Hv' | ->%list_elem_of_singleton]%elem_of_app.
    + destruct (Hvs v' Hv') as (Ht' & k' & Hk' & Hin & Hout).
      split; [done|]. exists k'. set_solver.
    + split; [done|]. exists k. set_solver.
  - intros k' [->%elem_of_singleton | Hk']%elem_of_union.
    + right. exists v. split; [|done]. apply elem_of_app. right. left.
    + destruct (Hks k' Hk') as [? | (v' & Hv' & ?)]; [by left | right].
      exists v'. split; [|done]. apply elem_of_app. by left.
Qed.

Lemma collect_invariant seed qs st st' :
  collected_from seed st → collect st qs = Ok st' → collected_from seed st'.
Proof.
  apply (for_each_invariant (collected_from seed)). intros st1 q st2 _ HP.
  apply (for_each_invariant (collected_from seed)); [|done].
  intros ??? _. apply collect_video_invariant.
Qed.

Lemma collected_from_start seed : collected_from seed (seed, []).
Proof.
  unfold collected_from. simpl. split; [done|]. split; [apply NoDup_nil_2|]. split.
  - intros v Hv. by apply not_elem_of_nil in Hv.
  - intros k Hk. by left.
Qed.

Lemma filter_valid_sublist vs kept :
  filter_valid lower vs = Ok kept → kept `sublist_of` vs.
Proof.
  revert kept. induction vs as [|v vs IH]; intros kept; simpl.
  - intros [= <-]. constructor.
  - destruct (is_valid_video lower v) as [keep|e]; simpl; [|done].
    destruct (filter_valid lower vs) as [kept'|e]; simpl; [|done].
    intros [= <-]. destruct keep; constructor; by apply IH.
Qed.

(** What the collection loop leaves in [filtered_videos]. *)
Lemma filtered_videos_fresh seed qs batch :
  filtered_videos seed qs = Ok batch →
  NoDup (video_id <$> batch) ∧
  ∀ v, v ∈ batch →
    truthy (video_id v) = true ∧
    ∃ k, hash_key (video_id v) = Ok k ∧ k ∉ seed.
Proof.
  unfold filtered_videos.
  destruct (collect (seed, []) qs) as [st|e] eqn:Hc; simpl; [|done].
  intros Hsub%filter_valid_sublist.
  destruct (collect_invariant seed qs _ _ (collected_from_start seed) Hc)
    as (_ & Hnd & Hvs & _).
  split.
  - eapply sublist_NoDup; [done|]. by apply fmap_sublist.
  - intros v Hv. destruct (Hvs v) as (Ht & k & Hk & _ & Hseed).
    + by eapply elem_of_sublist.
    + split; [done|]. by exists k.
Qed.

(** C2. When a run reaches the end of its filter step, the identifiers of
    the records of [filtered_videos] are pairwise different, and none of
    them is in the set that [get_crawled_video_ids] loaded from the
    database at the start of the run. *)
Theorem accepted_batch_fresh db batch :
  crawl db = Ok batch →
  NoDup (video_id <$> batch) ∧
  ∀ v, v ∈ batch →
    ∃ k, hash_key (video_id v) = Ok k ∧ k ∉ get_crawled_video_ids db.
Proof.
  intros [Hnd Hvs]%filtered_videos_fresh. split; [done|].
  intros v Hv. by destruct (Hvs v Hv) as [_ ?].
Qed.

Lemma collect_cons st q qs :
  collect st (q :: qs) = (st1 ← collect_query st q; collect st1 qs).
Proof. done. Qed.

(** Every record that a successful pass has met is passed over afterwards. *)
Lemma collect_video_covers st v st' :
  collect_video st v = Ok st' → st.1 ⊆ st'.1 ∧ covered st'.1 v.
Proof.
  intros Hstep. unfold covered.
  destruct (collect_video_cases _ _ _ Hstep)
    as [[Ht ->] | [(k & _ & Hk & Hin & ->) | (k & _ & Hk & _ & ->)]].
  - split; [done|]. congruence.
  - split; [done|]. intros _. by exists k.
  - simpl. split; [set_solver|]. intros _. exists k. set_solver.
Qed.

Lemma covered_mono seen seen' v : seen ⊆ seen' → covered seen v → covered seen' v.
Proof.
  intros Hsub Hc Ht. destruct (Hc Ht) as (k & Hk & Hin). exists k. set_solver.
Qed.

Lemma collect_videos_cover vs st st' :
  for_each collect_video st vs = Ok st' →
  st.1 ⊆ st'.1 ∧ ∀ v, v ∈ vs → covered st'.1 v.
Proof.
  revert st. induction vs as [|v vs IH]; intros st; simpl.
  - intros [= <-]. split; [done|]. intros v Hv. by apply not_elem_of_nil in Hv.
  - destruct (collect_video st v) as [st1|e] eqn:Hv; simpl; [|done].
    intros [Hsub Hcov]%IH. destruct (collect_video_covers _ _ _ Hv) as [Hsub1 Hc1].
    split; [set_solver|].
    intros v' [-> | Hv']%elem_of_cons; [by eapply covered_mono | by apply Hcov].
Qed.

Lemma collect_covers qs st st' :
  collect st qs = Ok st' →
  st.1 ⊆ st'.1 ∧
  ∀ q v, q ∈ qs → v ∈ get_video_info q 20 → covered st'.1 v.
Proof.
  revert st. induction qs as [|q qs IH]; intros st; simpl.
  - intros [= <-]. split; [done|]. intros q v Hq. by apply not_elem_of_nil in Hq.
  - rewrite collect_cons.
    destruct (collect_query st q) as [st1|e] eqn:Hq; simpl; [|done].
    intros [Hsub Hcov]%IH. destruct (collect_videos_cover _ _ _ Hq) as [Hsub1 Hc1].
    split; [set_solver|].
    intros q' v [-> | Hq']%elem_of_cons Hv.
    + eapply covered_mono; [done | by apply Hc1].
    + by eapply Hcov.
Qed.

Lemma collect_videos_skip vs st :
  (∀ v, v ∈ vs → covered st.1 v) → for_each collect_video st vs = Ok st.
Proof.
  induction vs as [|v vs IH]; intros Hcov; simpl; [done|].
  rewrite collect_video_skip by (apply Hcov; left). simpl.
  apply IH. intros v' Hv'. apply Hcov. by right.
Qed.

Lemma collect_skip qs st :
  (∀ q v, q ∈ qs → v ∈ get_video_info q 20 → covered st.1 v) →
  collect st qs = Ok st.
Proof.
  induction qs as [|q qs IH]; intros Hcov; [done|].
  rewrite collect_cons. unfold collect_query at 1.
  rewrite collect_videos_skip by (intros v; apply Hcov; left). simpl.
  apply IH. intros q' v Hq'. apply Hcov. by right.
Qed.

(** C8. After a collection pass that ends in the set [st.1], a second pass
    that starts from that set with an empty working list, over the same
    responses to any of the same queries in any order, leaves the set as
    it is and collects nothing, so its [filtered_videos] is empty. *)
Theorem second_pass_collects_nothing seed qs st qs' :
  collect (seed, []) qs = Ok st →
  qs' ⊆ qs →
  collect (st.1, []) qs' = Ok (st.1, []) ∧
  filtered_videos st.1 qs' = Ok [].
Proof.
  intros [_ Hcov]%collect_covers Hsub.
  assert (collect (st.1, []) qs' = Ok (st.1, [])) as Hskip.
  { apply collect_skip. intros q v Hq Hv. simpl. eapply Hcov; [|done]. by apply Hsub. }
  split; [done|]. unfold filtered_videos. by rewrite Hskip.
Qed.

(** C9. A record whose identifier is missing, [None] or the empty string
    leaves both the set of identifiers and the working list as they are
    when the loop body meets it; it is in no working list that the loop
    builds and in no [filtered_videos]; and the loop adds neither [None]
    nor the empty string to the set of identifiers. *)
Theorem blank_identifier_skipped v :
  video_id v = VNone ∨ video_id v = VStr [] →
  (∀ st, collect_video st v = Ok st) ∧
  (∀ seed qs st, collect (seed, []) qs = Ok st →
     (v ∉ st.2) ∧ (KNone ∈ st.1 → KNone ∈ seed) ∧ (KStr [] ∈ st.1 → KStr [] ∈ seed)) ∧
  (∀ seed qs batch, filtered_videos seed qs = Ok batch → v ∉ batch).
Proof.
  intros Hid. assert (truthy (video_id v) = false) as Hfalsy.
  { by destruct Hid as [-> | ->]. }
  split; [|split].
  - intros st. apply collect_video_skip. unfold covered. congruence.
  - intros seed qs st Hc.
    destruct (collect_invariant seed qs _ _ (collected_from_start seed) Hc)
      as (_ & _ & Hvs & Hks).
    split; [|split].
    + intros Hv. destruct (Hvs v Hv) as [Ht _]. congruence.
    + intros Hk. destruct (Hks _ Hk) as [? | (v' & Hv' & Hk')]; [done|].
      destruct (Hvs v' Hv') as [Ht _]. by destruct (video_id v') as [| | |[]].
    + intros Hk. destruct (Hks _ Hk) as [? | (v' & Hv' & Hk')]; [done|].
      destruct (Hvs v' Hv') as [Ht _].
      destruct (video_id v') as [| |[]|[]]; simpl in *; congruence.
  - intros seed qs batch Hb Hv.
    destruct (filtered_videos_fresh seed qs batch Hb) as [_ Hvs].
    destruct (Hvs v Hv) as [Ht _]. congruence.
Qed.

Lemma collect_without_failing st qs :
  collect st qs = collect st (filter (λ q, extraction_raises extract_info q = false) qs).
Proof.
  revert st. induction qs as [|q qs IH]; intros st; [done|].
  rewrite filter_cons. destruct (decide (extraction_raises extract_info q = false)) as [Hq|Hq].
  - rewrite !collect_cons. destruct (collect_query st q); simpl; [apply IH | done].
  - rewrite collect_cons, <- IH. unfold collect_query at 1, get_video_info.
    unfold extraction_raises in Hq.
    by destruct (extract_info 20 (search_url 20 q)) as [[]|].
Qed.

(** C6. A query on which the extraction raises yields the empty list
    instead of the exception, and the program goes on: [filtered_videos] is
    what the queries on which the extraction does not raise give, in the
    same order. *)
Theorem failing_queries_isolated :
  (∀ q n e, extract_info n (search_url n q) = Raise e → get_video_info q n = []) ∧
  (∀ seed qs,
     filtered_videos seed qs
     = filtered_videos seed (filter (λ q, extraction_raises extract_info q = false) qs)).
Proof.
  split.
  - intros q n e He. unfold get_video_info. by rewrite He.
  - intros seed qs. unfold filtered_videos. by rewrite <- collect_without_failing.
Qed.

End PipelineFacts.

(** ** The output file *)

Lemma main_emits lower extract_info json_dump db old f batch :
  crawl lower extract_info db = Ok batch →
  main lower extract_info json_dump db old f = emit old (json_dump batch) f.
Proof. unfold main. by intros ->. Qed.

(** C7 (amended). When the output cannot be written the program ends with
    a failure status; the file is as it was if [open] failed, and otherwise
    its previous content is gone and it holds the first characters of the
    document, as many as were written before the failure. *)
Theorem emit_failure_leaves_prefix old doc f :
  f ≠ NoFault →
  (emit old doc f).1 = ExitFailure ∧
  ((f = OpenFails ∧ (emit old doc f).2 = old) ∨
   (∃ n, f = WriteFails n ∧ (emit old doc f).2 = Some (take n doc))).
Proof.
  destruct f as [| |n]; intros Hf; [done | |]; (split; [done|]).
  - by left.
  - right. by exists n.
Qed.

(** ** Instances on the sample data *)

Lemma ascii_lower_allowed a : a ∈ ALLOWED_CATEGORIES → ascii_lower a = a.
Proof.
  unfold ALLOWED_CATEGORIES. rewrite !elem_of_cons.
  intros [-> | [-> | [-> | Ha]]]; try reflexivity. by apply not_elem_of_nil in Ha.
Qed.

Lemma good_video_duration : duration_rule good_video.
Proof. exists 60. split; [reflexivity | lia]. Qed.

Lemma good_video_popularity : popularity_rule good_video.
Proof. exists 5000. split; [reflexivity | lia]. Qed.

Lemma good_video_keyword : keyword_rule good_video.
Proof.
  exists (str "kimchi stew"), (str "home cooking").
  split; [reflexivity|]. split; [reflexivity|].
  by apply has_blacklisted_spec.
Qed.

Lemma good_video_category : category_rule ascii_lower good_video.
Proof.
  exists [str "Howto"; str "Cooking"]. split; [reflexivity|].
  exists (str "Cooking"), (str "cooking"). split; [|split].
  - right. left.
  - left.
  - reflexivity.
Qed.

Lemma good_video_locale : locale_rule good_video.
Proof.
  exists [0xD55C; 0xC2DD]. split; [reflexivity|].
  exists 0xD55C. split; [left|]. unfold HANGUL_FIRST, HANGUL_LAST. lia.
Qed.

Lemma is_valid_video_iff_all_rules_witness :
  candidate_record good_video = true ∧
  (is_valid_video ascii_lower good_video = Ok true
   ↔ all_rules ascii_lower good_video) ∧
  (is_valid_video ascii_lower good_video = Ok false
   ↔ ¬ all_rules ascii_lower good_video).
Proof.
  split; [reflexivity|].
  apply (is_valid_video_iff_all_rules ascii_lower ascii_lower_allowed good_video).
  reflexivity.
Defined.

Lemma duration_floor_witness :
  is_valid_video ascii_lower short_video = Ok false ∧
  is_valid_video ascii_lower good_video = Ok true.
Proof.
  split.
  - apply (proj1 (duration_floor ascii_lower ascii_lower_allowed short_video)).
    right. exists 59. split; [reflexivity | lia].
  - apply (proj2 (duration_floor ascii_lower ascii_lower_allowed good_video)).
    + reflexivity.
    + exact good_video_popularity.
    + exact good_video_keyword.
    + exact good_video_category.
    + exact good_video_locale.
Defined.

Lemma popularity_floor_witness :
  is_valid_video ascii_lower unpopular_video = Ok false ∧
  is_valid_video ascii_lower good_video = Ok true.
Proof.
  split.
  - apply (proj1 (popularity_floor ascii_lower ascii_lower_allowed unpopular_video)).
    + reflexivity.
    + right. exists 100. split; [reflexivity | lia].
  - apply (proj2 (popularity_floor ascii_lower ascii_lower_allowed good_video)).
    + reflexivity.
    + exact good_video_duration.
    + exact good_video_keyword.
    + exact good_video_category.
    + exact good_video_locale.
Defined.

Lemma missing_categories_rejected_witness :
  is_valid_video ascii_lower uncategorised_video
  = is_valid_video ascii_lower (<["categories" := VList []]> uncategorised_video) ∧
  is_valid_video ascii_lower uncategorised_video = Ok false.
Proof.
  apply (missing_categories_rejected ascii_lower uncategorised_video);
    reflexivity.
Defined.

(** C3 (as stated) fails: with an empty vocabulary no fallback query is in
    the result. *)
Lemma empty_vocabulary_no_fallback :
  vocabulary_fails_or_empty empty_db ∧
  ¬ contains_fallback_queries (get_search_queries empty_db).
Proof.
  split; [by right|]. intros [Hq _].
  destruct (Hq [0xD55C; 0xC2DD]) as [Hin _]; [left|].
  apply elem_of_search_queries in Hin as [Hin | [Hin | (n & Hn & _)]];
    [discriminate.. |]. by apply not_elem_of_nil in Hn.
Qed.

Lemma fallback_on_failure_only_witness :
  contains_fallback_queries (get_search_queries sample_db) ∧
  (∀ q, q ∈ get_search_queries empty_db ↔ q = EXTRA_SIMPLE ∨ q = EXTRA_SINGLE).
Proof.
  split.
  - apply (proj1 (fallback_on_failure_only sample_db)).
    exists OtherException. reflexivity.
  - apply (proj2 (fallback_on_failure_only empty_db)). reflexivity.
Defined.

Lemma accepted_batch_fresh_witness :
  crawl ascii_lower sample_extract sample_db = Ok [good_video; second_video] ∧
  NoDup (video_id <$> [good_video; second_video]) ∧
  ∀ v, v ∈ [good_video; second_video] →
    ∃ k, hash_key (video_id v) = Ok k ∧ k ∉ get_crawled_video_ids sample_db.
Proof.
  assert (crawl ascii_lower sample_extract sample_db
          = Ok [good_video; second_video]) as Hrun.
  { vm_cast_no_check (eq_refl (Ok [good_video; second_video])). }
  split; [exact Hrun|].
  exact (accepted_batch_fresh ascii_lower sample_extract sample_db
           [good_video; second_video] Hrun).
Defined.

Lemma second_pass_collects_nothing_witness :
  collect sample_extract (first_pass.1, []) (get_search_queries sample_db)
  = Ok (first_pass.1, []) ∧
  filtered_videos ascii_lower sample_extract first_pass.1
    (get_search_queries sample_db) = Ok [].
Proof.
  apply (second_pass_collects_nothing ascii_lower sample_extract
           (get_crawled_video_ids sample_db) (get_search_queries sample_db)
           first_pass (get_search_queries sample_db)).
  - vm_cast_no_check (eq_refl (Ok first_pass)).
  - intros q Hq. exact Hq.
Defined.

Lemma blank_identifier_skipped_witness :
  collect_video first_pass blank_video = Ok first_pass ∧
  (blank_video ∉ first_pass.2) ∧
  blank_video ∉ [good_video; second_video].
Proof.
  destruct (blank_identifier_skipped ascii_lower sample_extract blank_video)
    as (Hstep & Hloop & Hbatch).
  { right. reflexivity. }
  split; [apply Hstep|]. split.
  - apply (Hloop (get_crawled_video_ids sample_db) (get_search_queries sample_db)).
    vm_cast_no_check (eq_refl (Ok first_pass)).
  - apply (Hbatch (get_crawled_video_ids sample_db) (get_search_queries sample_db)).
    vm_cast_no_check (eq_refl (Ok [good_video; second_video])).
Defined.

Lemma failing_queries_isolated_witness :
  get_video_info sample_extract query_chinese 20 = [] ∧
  filtered_videos ascii_lower sample_extract ∅ [query_chinese; query_korean]
  = filtered_videos ascii_lower sample_extract ∅ [query_korean].
Proof.
  split.
  - apply (proj1 (failing_queries_isolated ascii_lower sample_extract)
             query_chinese 20 OtherException).
    vm_compute. reflexivity.
  - apply (proj2 (failing_queries_isolated ascii_lower sample_extract)
             ∅ [query_chinese; query_korean]).
Defined.

(** The run of the witness above: the query that fails adds nothing, the
    other one gives its three valid records with new identifiers. *)
Example fetch_failure_isolation_run :
  filtered_videos ascii_lower sample_extract ∅ [query_chinese; query_korean]
  = Ok [good_video; second_video; known_video].
Proof. vm_cast_no_check (eq_refl (Ok [good_video; second_video; known_video])). Qed.

(** A title with the keyword ["협찬"] is rejected. *)
Example sponsored_title_rejected :
  is_valid_video ascii_lower
    (<["title" := VStr ([0xD611; 0xCC2C] ++ str " kimchi")]> good_video)
  = Ok false.
Proof. vm_compute. reflexivity. Qed.

(** Outside the data model the check can raise: a description that is
    [None] cannot be concatenated. *)
Example none_description_raises :
  is_valid_video ascii_lower (<["description" := VNone]> good_video)
  = Raise TypeError.
Proof. vm_compute. reflexivity. Qed.

(** C7 (as stated) fails: a failure after the first six characters of the
    document leaves a file that is neither complete nor absent. *)
Lemma partial_output_file :
  (emit None sample_doc (WriteFails 6)).1 = ExitFailure ∧
  (emit None sample_doc (WriteFails 6)).2 = Some (str "[" ++ [10] ++ str "    ") ∧
  ¬ written_or_untouched None sample_doc (emit None sample_doc (WriteFails 6)).
Proof.
  split; [reflexivity|]. split; [reflexivity|].
  intros [_ [H | H]]; vm_compute in H; discriminate.
Qed.

Lemma emit_failure_leaves_prefix_witness :
  (emit None sample_doc (WriteFails 6)).1 = ExitFailure ∧
  ((WriteFails 6 = OpenFails ∧ (emit None sample_doc (WriteFails 6)).2 = None) ∨
   (∃ n, WriteFails 6 = WriteFails n
         ∧ (emit None sample_doc (WriteFails 6)).2 = Some (take n sample_doc))).
Proof.
  apply (emit_failure_leaves_prefix None sample_doc (WriteFails 6)).
  discriminate.
Defined.

(* ------------------------------------------------------------------ *)
(** * Further properties of the code *)

(** ** Query generation *)

(** With a vocabulary that the database answers, the queries are the two
    fixed ones and every term of the vocabulary with each of the two
    suffixes, and nothing else. *)
Theorem search_queries_characterised db names :
  dish_type_names db = Ok names →
  ∀ q, q ∈ get_search_queries db ↔
       q = EXTRA_SIMPLE ∨ q = EXTRA_SINGLE ∨
       ∃ n, n ∈ names ∧ (q = n ++ SUFFIX_RECIPE ∨ q = n ++ SUFFIX_MAKING).
Proof.
  intros Hn q. rewrite elem_of_search_queries, Hn. tauto.
Qed.

Lemma size_add_one (x : pystr) (X : gset pystr) :
  (size ({[ x ]} ∪ X) ≤ S (size X))%nat.
Proof.
  rewrite size_union_alt, size_singleton.
  apply le_n_S, subseteq_size. set_solver.
Qed.

Lemma size_derived (names : list pystr) (s : gset pystr) :
  (size (foldl add_derived s names) ≤ size s + 2 * length names)%nat.
Proof.
  revert s. induction names as [|n names IH]; intros s; simpl; [lia|].
  etrans; [apply IH|]. unfold add_derived.
  pose proof (size_add_one (n ++ SUFFIX_MAKING) ({[n ++ SUFFIX_RECIPE]} ∪ s)).
  pose proof (size_add_one (n ++ SUFFIX_RECIPE) s). lia.
Qed.

(** The list of queries has no repetition, it always holds the two fixed
    queries at least, and for a vocabulary of [n] terms it holds at most
    [2 * n + 2] queries. *)
Theorem search_queries_nodup_bounds db :
  NoDup (get_search_queries db) ∧
  (2 ≤ length (get_search_queries db))%nat ∧
  (∀ names, dish_type_names db = Ok names →
     (length (get_search_queries db) ≤ 2 * length names + 2)%nat).
Proof.
  unfold get_search_queries. split; [apply NoDup_elements|]. split.
  - change (2 ≤ size (search_query_set db))%nat.
    assert (size ({[ EXTRA_SINGLE ]} ∪ {[ EXTRA_SIMPLE ]} : gset pystr) = 2%nat) as <-.
    { rewrite size_union, !size_singleton; [done|].
      apply disjoint_singleton_l, not_elem_of_singleton. discriminate. }
    apply subseteq_size. unfold search_query_set. set_solver.
  - intros names Hn. change (size (search_query_set db) ≤ 2 * length names + 2)%nat.
    unfold search_query_set. rewrite Hn.
    pose proof (size_derived names ∅) as Hd. rewrite size_empty in Hd.
    pose proof (size_add_one EXTRA_SINGLE
                  ({[ EXTRA_SIMPLE ]} ∪ foldl add_derived ∅ names)).
    pose proof (size_add_one EXTRA_SIMPLE (foldl add_derived ∅ names)). lia.
Qed.

(** Repetitions and the order of the terms of the vocabulary do not show in
    the result: two vocabularies with the same terms give the same queries,
    up to the order of the list. *)
Theorem search_queries_same_terms db db' names names' :
  dish_type_names db = Ok names →
  dish_type_names db' = Ok names' →
  (∀ n, n ∈ names ↔ n ∈ names') →
  get_search_queries db ≡ₚ get_search_queries db'.
Proof.
  intros Hn Hn' Hsame. apply NoDup_Permutation.
  - unfold get_search_queries. apply NoDup_elements.
  - unfold get_search_queries. apply NoDup_elements.
  - intros q. rewrite !elem_of_search_queries, Hn, Hn'.
    by setoid_rewrite Hsame.
Qed.

(** ** The validity check *)

Lemma has_blacklisted_true kws text :
  has_blacklisted kws text = true ↔ ∃ kw, kw ∈ kws ∧ is_substring kw text.
Proof.
  induction kws as [|kw kws IH]; simpl.
  - split; [done|]. intros (kw & Hkw & _). by apply not_elem_of_nil in Hkw.
  - destruct (str_contains kw text) eqn:Hc.
    + split; [|done]. intros _. exists kw. split; [left|].
      by apply str_contains_spec.
    + rewrite IH. split.
      * intros (kw' & Hin & Hsub). exists kw'. split; [by right | done].
      * intros (kw' & [-> | Hin]%elem_of_cons & Hsub); [|by exists kw'].
        apply str_contains_spec in Hsub. congruence.
Qed.

(** A keyword without the separator occurs in two texts joined by the
    separator only if it occurs in one of them. *)
Lemma is_substring_join kw sep t d :
  kw ≠ [] → sep ∉ kw →
  is_substring kw (t ++ sep :: d) ↔ is_substring kw t ∨ is_substring kw d.
Proof.
  intros Hne Hsep. unfold is_substring. split.
  - intros (pre & suf & Heq). symmetry in Heq.
    apply app_eq_inv in Heq as [(k & -> & Hd) | (k & -> & Hk)].
    + destruct k as [|x k]; simpl in Hd.
      * destruct kw as [|y kw]; [done|]. injection Hd as -> _.
        exfalso. apply Hsep. left.
      * injection Hd as _ ->. right. by exists k, suf.
    + apply app_eq_inv in Hk as [(k' & -> & Hd) | (k' & -> & ->)].
      * destruct k' as [|x k']; simpl in Hd.
        -- left. exists pre, []. by rewrite !app_nil_r.
        -- injection Hd as -> _. exfalso. apply Hsep.
           apply elem_of_app. right. left.
      * left. by exists pre, k'.
  - intros [(pre & suf & ->) | (pre & suf & ->)].
    + exists pre, (suf ++ sep :: d). by rewrite <- !app_assoc.
    + exists (t ++ sep :: pre), suf. by rewrite <- !app_assoc.
Qed.

Lemma blacklist_keywords_no_space kw :
  kw ∈ BLACKLIST_KEYWORDS → kw ≠ [] ∧ 32 ∉ kw.
Proof.
  unfold BLACKLIST_KEYWORDS. rewrite !elem_of_cons.
  intros [-> | [-> | H]]; [| |by apply not_elem_of_nil in H];
    (split; [done|]); rewrite !elem_of_cons;
    intros [? | [? | H]]; try discriminate; by apply not_elem_of_nil in H.
Qed.

Lemma has_blacklisted_join title description :
  has_blacklisted BLACKLIST_KEYWORDS (title ++ str " " ++ description) = true ↔
  ∃ kw, kw ∈ BLACKLIST_KEYWORDS
        ∧ (is_substring kw title ∨ is_substring kw description).
Proof.
  rewrite has_blacklisted_true. change (str " " ++ description) with (32 :: description).
  split; intros (kw & Hkw & Hsub); exists kw; (split; [done|]);
    destruct (blacklist_keywords_no_space kw Hkw) as [Hne Hsp];
    by apply (is_substring_join kw 32).
Qed.

Section ValidatorEdges.

Variable lower : pystr → pystr.

#[local] Arguments has_blacklisted : simpl never.
#[local] Arguments str : simpl never.

(** On a record typed as the data model says the check does not raise. *)
Theorem is_valid_video_never_raises v :
  candidate_record v = true →
  is_valid_video lower v = Ok true ∨ is_valid_video lower v = Ok false.
Proof.
  intros Ht. destruct (is_valid_video_total lower v Ht) as [[] Hb]; auto.
Qed.

(** The checks run in the order of the source and the first one that fails
    decides: the fields of the later checks are not read, whatever they
    hold. With a passing duration a low or missing view count rejects; with
    both numbers passing a keyword in the title or in the description
    rejects; with no keyword in either, labels of which none is allowed
    reject. *)
Theorem first_failing_check_decides v d :
  get v "duration" = VInt d → 60 ≤ d →
  (get v "view_count" = VNone ∨ (∃ n, get v "view_count" = VInt n ∧ n < 5000) →
   is_valid_video lower v = Ok false) ∧
  (∀ n title description,
     get v "view_count" = VInt n → 5000 ≤ n →
     field_str v "title" = Some title →
     field_str v "description" = Some description →
     ((∃ kw, kw ∈ BLACKLIST_KEYWORDS
             ∧ (is_substring kw title ∨ is_substring kw description)) →
      is_valid_video lower v = Ok false) ∧
     (∀ labels,
        (∀ kw, kw ∈ BLACKLIST_KEYWORDS →
           ¬ is_substring kw title ∧ ¬ is_substring kw description) →
        field_labels v = Some labels →
        (∀ c, c ∈ labels → lower c ∉ ALLOWED_CATEGORIES) →
        is_valid_video lower v = Ok false)).
Proof.
  intros Hd Hd60. apply Z.ltb_ge in Hd60. unfold is_valid_video. rewrite Hd. simpl.
  rewrite Hd60. simpl. split.
  - intros [-> | (n & -> & Hn)]; [done|]. simpl. apply Z.ltb_lt in Hn. by rewrite Hn.
  - intros n title description -> Hn Ht Hde. apply Z.ltb_ge in Hn. simpl.
    rewrite Hn. simpl. apply field_str_get in Ht, Hde. rewrite Ht, Hde. simpl.
    rewrite <- app_assoc. split.
    + intros Hkw. apply has_blacklisted_join in Hkw. by rewrite Hkw.
    + intros labels Hno Hl Hnone.
      destruct (has_blacklisted _ _) eqn:Hb.
      { apply has_blacklisted_join in Hb as (kw & Hkw & Hsub).
        destruct (Hno kw Hkw). tauto. }
      unfold field_labels in Hl. unfold get_default.
      assert (any_allowed lower
                match v !! "categories" with
                | Some (VList l) => l
                | _ => []
                end = Ok false) as Hany.
      { destruct (v !! "categories") as [[| | |l]|]; try done.
        rewrite (any_allowed_labels lower l labels Hl). f_equal.
        apply not_true_iff_false. intros (c & Hc & Hin)%existsb_exists.
        apply (Hnone c); [by apply list_elem_of_In|].
        by apply bool_decide_eq_true in Hin. }
      destruct (v !! "categories") as [[| | |l]|]; try done; simpl;
        by rewrite Hany.
Qed.

(** The scan of the labels ends at the first allowed one: what follows it
    in the list is not looked at, so the verdict is the one of the record
    with that label alone, even if later items are not strings. *)
Theorem first_allowed_label_decides v before c rest :
  forallb is_str before = true →
  lower c ∈ ALLOWED_CATEGORIES →
  is_valid_video lower (<["categories" := VList (before ++ VStr c :: rest)]> v)
  = is_valid_video lower (<["categories" := VList [VStr c]]> v).
Proof.
  intros Hb Hc. unfold is_valid_video, get, get_default.
  rewrite !lookup_insert_eq, !lookup_insert_ne by done. simpl.
  assert (any_allowed lower (before ++ VStr c :: rest) = Ok true) as ->.
  { induction before as [|x before IH]; simpl.
    - unfold str_in. by rewrite bool_decide_eq_true_2.
    - simpl in Hb. apply andb_true_iff in Hb as [Hx Hb].
      destruct x; try done.
      destruct (str_in (lower s) ALLOWED_CATEGORIES); [done | by apply IH]. }
  unfold str_in. by rewrite (bool_decide_eq_true_2 _ Hc).
Qed.

(** Only six keys of the record count: setting or removing any other key,
    the identifier included, leaves the verdict as it is. *)
Theorem other_keys_ignored v k x :
  k ∉ VALIDITY_KEYS →
  is_valid_video lower (<[k := x]> v) = is_valid_video lower v ∧
  is_valid_video lower (delete k v) = is_valid_video lower v.
Proof.
  unfold VALIDITY_KEYS. rewrite !not_elem_of_cons.
  intros (? & ? & ? & ? & ? & ? & _).
  unfold is_valid_video, get, get_default.
  by rewrite !lookup_insert_ne, !lookup_delete_ne by done.
Qed.

(** A record without a channel name, or whose channel name has no code
    point from U+AC00 to U+D7A3, is never accepted. *)
Theorem channel_outside_range_never_accepted v channel :
  field_str v "channel" = Some channel →
  (∀ c, c ∈ channel → c < HANGUL_FIRST ∨ HANGUL_LAST < c) →
  is_valid_video lower v ≠ Ok true.
Proof.
  intros Hch Hout (? & ? & ? & ? & ? & channel' & Hp)%is_valid_video_true.
  destruct Hp as (_ & _ & _ & _ & _ & _ & _ & _ & _ & Hch' & Hk).
  apply field_str_get in Hch. rewrite Hch in Hch'. injection Hch' as <-.
  apply existsb_in_hangul in Hk as (c & Hc & Hr).
  destruct (Hout c Hc); lia.
Qed.

(** A record whose [categories] field is one string instead of a list has
    that string scanned character by character, so it is never accepted;
    [str.lower] is assumed to send no one-character string to an allowed
    label. *)
Theorem categories_as_string_never_accepted v s :
  (∀ c, lower [c] ∉ ALLOWED_CATEGORIES) →
  v !! "categories" = Some (VStr s) →
  is_valid_video lower v ≠ Ok true.
Proof.
  intros Hone Hs (? & ? & ? & ? & items & ? & Hp)%is_valid_video_true.
  destruct Hp as (_ & _ & _ & _ & _ & _ & _ & Hi & Ha & _).
  unfold get_default in Hi. rewrite Hs in Hi. injection Hi as <-.
  apply any_allowed_true in Ha as (c & Hc & Hin).
  apply list_elem_of_fmap in Hc as (z & [= ->] & _). by apply (Hone z).
Qed.

(** The join of title and description by a space adds no match: a record
    that is accepted has no keyword in its title and none in its
    description, and when neither holds one, the two fields no longer
    matter, the verdict is the one of the record with both emptied. *)
Theorem keywords_in_title_or_description v :
  (is_valid_video lower v = Ok true →
   ∃ title description,
     field_str v "title" = Some title ∧
     field_str v "description" = Some description ∧
     ∀ kw, kw ∈ BLACKLIST_KEYWORDS →
       ¬ is_substring kw title ∧ ¬ is_substring kw description) ∧
  (∀ title description,
     field_str v "title" = Some title →
     field_str v "description" = Some description →
     (∀ kw, kw ∈ BLACKLIST_KEYWORDS →
        ¬ is_substring kw title ∧ ¬ is_substring kw description) →
     is_valid_video lower v
     = is_valid_video lower
         (<["title" := VStr []]> (<["description" := VStr []]> v))).
Proof.
  split.
  - intros (? & ? & title & description & ? & ? & Hp)%is_valid_video_true.
    destruct Hp as (_ & _ & _ & _ & Ht & Hde & Hb & _).
    exists title, description. rewrite !field_str_get. split; [done|].
    split; [done|]. intros kw Hkw.
    apply not_true_iff_false in Hb. rewrite has_blacklisted_join in Hb.
    split; intros Hsub; apply Hb; exists kw; auto.
  - intros title description Ht Hde Hno.
    apply field_str_get in Ht, Hde.
    unfold is_valid_video, get, get_default in *.
    rewrite !lookup_insert_eq, !lookup_insert_ne, !lookup_insert_eq by done.
    rewrite !lookup_insert_ne by done. rewrite Ht, Hde. simpl.
    rewrite <- app_assoc.
    assert (has_blacklisted BLACKLIST_KEYWORDS (title ++ str " " ++ description)
            = false) as ->.
    { apply not_true_iff_false. rewrite has_blacklisted_join.
      intros (kw & Hkw & Hsub). destruct (Hno kw Hkw). tauto. }
    done.
Qed.

End ValidatorEdges.

(** ** The loops of the main program *)

(** A loop succeeds exactly when each of its steps does, if whether a step
    succeeds does not depend on the state. *)
Lemma for_each_ok_iff {S A} (body : S → A → result S) (P : A → Prop) :
  (∀ st x, (∃ st', body st x = Ok st') ↔ P x) →
  ∀ l st, (∃ st', for_each body st l = Ok st') ↔ ∀ x, x ∈ l → P x.
Proof.
  intros Hbody. induction l as [|x l IH]; intros st; simpl.
  - split; [|by eexists]. intros _ x Hx. by apply not_elem_of_nil in Hx.
  - split.
    + intros [st' Hrun]. destruct (body st x) as [st1|e] eqn:Hx; simpl in Hrun; [|done].
      intros y [-> | Hy]%elem_of_cons.
      * apply (Hbody st). by exists st1.
      * apply (IH st1); [by exists st' | done].
    + intros Hall. destruct (proj2 (Hbody st x)) as [st1 ->]; [apply Hall; left|].
      simpl. apply IH. intros y Hy. apply Hall. by right.
Qed.

Lemma for_each_raise {S A} (body : S → A → result S) e0 l :
  (∀ st x e, body st x = Raise e → e = e0) →
  ∀ st e, for_each body st l = Raise e → e = e0.
Proof.
  intros Hbody. induction l as [|x l IH]; intros st e; simpl; [done|].
  destruct (body st x) as [st1|e1] eqn:Hx; simpl.
  - apply IH.
  - intros [= <-]. by eapply Hbody.
Qed.

Lemma nodup_fmap_elem {A B} (f : A → B) (l : list A) x y :
  NoDup (f <$> l) → x ∈ l → y ∈ l → f x = f y → x = y.
Proof.
  induction l as [|a l IH]; simpl; [by intros _ Hx; apply not_elem_of_nil in Hx|].
  rewrite NoDup_cons. intros [Ha Hnd] [-> | Hx]%elem_of_cons [-> | Hy]%elem_of_cons Hf.
  - done.
  - exfalso. apply Ha. rewrite Hf. by apply list_elem_of_fmap_2.
  - exfalso. apply Ha. rewrite <- Hf. by apply list_elem_of_fmap_2.
  - by apply IH.
Qed.

Section PipelineEdges.

Variable lower : pystr → pystr.
Variable extract_info : Z → pystr → result (option (gmap string (list video))).

#[local] Abbreviation get_video_info := (get_video_info extract_info).
#[local] Abbreviation collect_query := (collect_query extract_info).
#[local] Abbreviation collect := (collect extract_info).
#[local] Abbreviation filtered_videos := (filtered_videos lower extract_info).
#[local] Abbreviation fetched := (fetched extract_info).

Lemma elem_of_fetched qs v :
  v ∈ fetched qs ↔ ∃ q, q ∈ qs ∧ v ∈ get_video_info q 20.
Proof.
  unfold fetched. rewrite list_elem_of_bind. split; intros (q & ? & ?); by exists q.
Qed.

Lemma fetched_cons q qs :
  fetched (q :: qs) = get_video_info q 20 ++ fetched qs.
Proof. done. Qed.

Lemma collect_videos_appends vs st st' :
  for_each collect_video st vs = Ok st' →
  ∃ new, st'.2 = st.2 ++ new ∧ new `sublist_of` vs.
Proof.
  revert st. induction vs as [|v vs IH]; intros st; simpl.
  - intros [= <-]. exists []. by rewrite app_nil_r.
  - destruct (collect_video st v) as [st1|e] eqn:Hv; simpl; [|done].
    intros (new & Hnew & Hsub)%IH. rewrite Hnew.
    destruct (collect_video_cases _ _ _ Hv)
      as [[_ ->] | [(k & _ & _ & _ & ->) | (k & _ & _ & _ & ->)]].
    + exists new. split; [done | by constructor].
    + exists new. split; [done | by constructor].
    + exists (v :: new). simpl. rewrite <- app_assoc. split; [done | by constructor].
Qed.

Lemma collect_appends qs st st' :
  collect st qs = Ok st' →
  ∃ new, st'.2 = st.2 ++ new ∧ new `sublist_of` fetched qs.
Proof.
  revert st. induction qs as [|q qs IH]; intros st.
  - intros [= <-]. exists []. by rewrite app_nil_r.
  - rewrite (collect_cons extract_info).
    destruct (collect_query st q) as [st1|e] eqn:Hq; simpl; [|done].
    intros (new & Hnew & Hsub)%IH.
    destruct (collect_videos_appends _ _ _ Hq) as (new1 & Hnew1 & Hsub1).
    exists (new1 ++ new). rewrite Hnew, Hnew1, <- app_assoc. split; [done|].
    by apply sublist_app.
Qed.

Lemma collected_in_fetched seed qs st :
  collect (seed, []) qs = Ok st → st.2 `sublist_of` fetched qs.
Proof. by intros (new & -> & Hsub)%collect_appends. Qed.

Lemma filter_valid_ok_iff vs kept :
  filter_valid lower vs = Ok kept ↔
  (∀ v, v ∈ vs → ∃ b, is_valid_video lower v = Ok b) ∧
  kept = filter (λ v, is_valid_video lower v = Ok true) vs.
Proof.
  revert kept. induction vs as [|v vs IH]; intros kept; simpl.
  - split.
    + intros [= <-]. split; [|done]. intros v Hv. by apply not_elem_of_nil in Hv.
    + by intros [_ ->].
  - rewrite filter_cons. split.
    + destruct (is_valid_video lower v) as [keep|e] eqn:Hv; simpl; [|done].
      destruct (filter_valid lower vs) as [kept'|e] eqn:Hvs; simpl; [|done].
      intros [= <-]. destruct (proj1 (IH kept') eq_refl) as [Hall ->]. split.
      * intros v' [-> | Hv']%elem_of_cons; [by exists keep | by apply Hall].
      * destruct keep; by case_decide.
    + intros [Hall ->]. destruct (Hall v) as [keep Hv]; [left|]. rewrite Hv. simpl.
      rewrite (proj2 (IH (filter (λ v, is_valid_video lower v = Ok true) vs))).
      * simpl. destruct keep; by case_decide.
      * split; [|done]. intros v' Hv'. apply Hall. by right.
Qed.

Lemma collect_video_ok_iff st v :
  (∃ st', collect_video st v = Ok st') ↔ ¬ unhashable_id v.
Proof.
  unfold collect_video, unhashable_id, video_id.
  destruct (get v "id") as [|n|s|[|x l]]; simpl.
  - split; [intros _ (? & ? & ?); done | by eexists].
  - split; [intros _ (? & ? & ?); done|]. intros _.
    destruct (negb (n =? 0)); [case_bool_decide|]; by eexists.
  - split; [intros _ (? & ? & ?); done|]. intros _.
    destruct s; [|case_bool_decide]; by eexists.
  - split; [intros _ (? & ? & ?); done | by eexists].
  - split; [by intros [? ?] | intros H; exfalso; apply H; by eexists _, _].
Qed.

Lemma collect_video_raise st v e : collect_video st v = Raise e → e = TypeError.
Proof.
  unfold collect_video. destruct (truthy _); [|done].
  destruct (get v "id"); simpl; try case_bool_decide; congruence.
Qed.

Lemma collect_ok_iff st qs :
  (∃ st', collect st qs = Ok st') ↔ ∀ v, v ∈ fetched qs → ¬ unhashable_id v.
Proof.
  unfold collect.
  rewrite (for_each_ok_iff collect_query
             (λ q, ∀ v, v ∈ get_video_info q 20 → ¬ unhashable_id v)).
  - setoid_rewrite elem_of_fetched. split.
    + intros H v (q & Hq & Hv). by apply (H q).
    + intros H q Hq v Hv. apply H. by exists q.
  - intros st1 q. unfold collect_query.
    apply for_each_ok_iff. intros st2 v. apply collect_video_ok_iff.
Qed.

Lemma collect_seen_iff seed qs st :
  collect (seed, []) qs = Ok st →
  ∀ k, k ∈ st.1 ↔
       k ∈ seed ∨
       ∃ v, v ∈ fetched qs ∧ truthy (video_id v) = true
            ∧ hash_key (video_id v) = Ok k.
Proof.
  intros Hc k.
  destruct (collect_invariant extract_info seed qs _ _ (collected_from_start seed) Hc)
    as (Hseed & _ & Hvs & Hks).
  destruct (collect_covers lower extract_info _ _ _ Hc) as [_ Hcov].
  pose proof (collected_in_fetched _ _ _ Hc) as Hsub. split.
  - intros Hk. destruct (Hks k Hk) as [? | (v & Hv & Hkv)]; [by left | right].
    exists v. destruct (Hvs v Hv) as [Ht _].
    split; [by eapply elem_of_sublist | done].
  - intros [Hk | (v & (q & Hq & Hv)%elem_of_fetched & Ht & Hkv)]; [by apply Hseed|].
    destruct (Hcov q v Hq Hv Ht) as (k' & Hk' & Hin). congruence.
Qed.

(** The list comprehension keeps, in their order, exactly the records for
    which the check answers [True], and it completes exactly when the check
    raises on none of the records. *)
Theorem filter_valid_keeps_valid vs kept :
  filter_valid lower vs = Ok kept ↔
  (∀ v, v ∈ vs → ∃ b, is_valid_video lower v = Ok b) ∧
  kept = filter (λ v, is_valid_video lower v = Ok true) vs.
Proof. apply filter_valid_ok_iff. Qed.

(** The records of [filtered_videos] were all fetched, and they stand in
    the order in which the loop over the queries met them. *)
Theorem batch_in_fetch_order seed qs batch :
  filtered_videos seed qs = Ok batch → batch `sublist_of` fetched qs.
Proof.
  unfold filtered_videos.
  destruct (collect (seed, []) qs) as [st|e] eqn:Hc; simpl; [|done].
  intros Hf%filter_valid_sublist. etrans; [done|]. by eapply collected_in_fetched.
Qed.

(** When the collection loop ends, the set of identifiers holds what it
    held at the start and the truthy identifiers of the fetched records,
    nothing else; and the working list holds a record for each of those
    identifiers that was not in the set at the start, and only for those. *)
Theorem identifiers_after_collection seed qs st :
  collect (seed, []) qs = Ok st →
  (∀ k, k ∈ st.1 ↔
        k ∈ seed ∨
        ∃ v, v ∈ fetched qs ∧ truthy (video_id v) = true
             ∧ hash_key (video_id v) = Ok k) ∧
  (∀ k, (∃ v, v ∈ st.2 ∧ hash_key (video_id v) = Ok k) ↔
        (k ∉ seed) ∧
        ∃ v, v ∈ fetched qs ∧ truthy (video_id v) = true
             ∧ hash_key (video_id v) = Ok k).
Proof.
  intros Hc. split; [by apply collect_seen_iff|]. intros k.
  destruct (collect_invariant extract_info seed qs _ _ (collected_from_start seed) Hc)
    as (_ & _ & Hvs & Hks).
  pose proof (collected_in_fetched _ _ _ Hc) as Hsub. split.
  - intros (v & Hv & Hk). destruct (Hvs v Hv) as (Ht & k' & Hk' & _ & Hout).
    assert (k' = k) as -> by congruence. split; [done|].
    exists v. split; [by eapply elem_of_sublist | done].
  - intros [Hout Hv]. destruct (Hks k) as [? | ?]; [|done..].
    apply (collect_seen_iff _ _ _ Hc). by right.
Qed.

(** The collection loop raises exactly when some fetched record has a
    non-empty list as its identifier, and what it raises then is a
    [TypeError]. *)
Theorem collection_raises_on_list_identifier st qs :
  ((∃ st', collect st qs = Ok st') ↔ ∀ v, v ∈ fetched qs → ¬ unhashable_id v) ∧
  (∀ e, collect st qs = Raise e → e = TypeError).
Proof.
  split; [apply collect_ok_iff|]. intros e.
  apply (for_each_raise collect_query TypeError). intros st1 q e1.
  apply (for_each_raise collect_video TypeError). intros ???. apply collect_video_raise.
Qed.

(** The identifiers that the collection loop ends with do not depend on
    the order of the queries nor on repeated queries: with the same queries
    in any order the loop completes as well and ends with the same set. *)
Theorem collection_order_independent seed qs qs' st :
  collect (seed, []) qs = Ok st →
  (∀ q, q ∈ qs' ↔ q ∈ qs) →
  ∃ st', collect (seed, []) qs' = Ok st' ∧ st'.1 = st.1.
Proof.
  intros Hc Hsame.
  assert (∀ v, v ∈ fetched qs' ↔ v ∈ fetched qs) as Hf.
  { intros v. rewrite !elem_of_fetched. by setoid_rewrite Hsame. }
  destruct (proj2 (collect_ok_iff (seed, []) qs')) as [st' Hc'].
  { intros v Hv. apply (proj1 (collect_ok_iff (seed, []) qs)); [by exists st|].
    by apply Hf. }
  exists st'. split; [done|]. apply set_eq. intros k.
  rewrite (collect_seen_iff _ _ _ Hc), (collect_seen_iff _ _ _ Hc').
  by setoid_rewrite Hf.
Qed.

(** When every fetched record is typed as the data model says, the steps
    up to [filtered_videos] complete without an exception. *)
Theorem run_completes_on_candidate_records seed qs :
  (∀ v, v ∈ fetched qs → candidate_record v = true) →
  ∃ batch, filtered_videos seed qs = Ok batch.
Proof.
  intros Ht. destruct (proj2 (collect_ok_iff (seed, []) qs)) as [st Hc].
  { intros v Hv (x & l & Hid). specialize (Ht v Hv).
    unfold candidate_record in Ht. repeat (apply andb_true_iff in Ht as [Ht ?]).
    unfold video_id, get in Hid. by destruct (v !! "id") as [[]|]. }
  unfold filtered_videos. rewrite Hc. simpl.
  exists (filter (λ v, is_valid_video lower v = Ok true) st.2).
  apply filter_valid_ok_iff. split; [|done]. intros v Hv.
  apply is_valid_video_total, Ht.
  eapply elem_of_sublist; [done|]. by eapply collected_in_fetched.
Qed.

(** The first record met with an identifier takes that identifier for the
    whole run, valid or not: once a record that the check does not accept
    is in the working list, no record with its identifier is in
    [filtered_videos]. *)
Theorem invalid_record_shadows_identifier seed qs st batch v1 :
  collect (seed, []) qs = Ok st →
  filtered_videos seed qs = Ok batch →
  v1 ∈ st.2 →
  is_valid_video lower v1 ≠ Ok true →
  ∀ v, v ∈ batch → video_id v ≠ video_id v1.
Proof.
  intros Hc Hb Hv1 Hbad v Hv Hid.
  unfold filtered_videos in Hb. rewrite Hc in Hb.
  simpl in Hb. apply filter_valid_ok_iff in Hb as [_ ->].
  apply list_elem_of_filter in Hv as [Hok Hv].
  destruct (collect_invariant extract_info seed qs _ _ (collected_from_start seed) Hc)
    as (_ & Hnd & _).
  assert (v = v1) as -> by (by eapply (nodup_fmap_elem video_id)).
  done.
Qed.

End PipelineEdges.

(** ** Instances of the further properties on the sample data *)

Lemma search_queries_characterised_witness :
  [0xC591; 0xC2DD] ++ SUFFIX_MAKING ∈ get_search_queries vocabulary_db ∧
  [0xC911; 0xC2DD] ++ SUFFIX_MAKING ∉ get_search_queries vocabulary_db.
Proof.
  pose proof (search_queries_characterised vocabulary_db _ eq_refl) as Hq.
  split.
  - apply Hq. right. right. exists [0xC591; 0xC2DD].
    split; [right; left | by right].
  - intros [H | [H | (n & Hn & Hs)]]%Hq; [discriminate.. |].
    rewrite !elem_of_cons in Hn.
    destruct Hn as [-> | [-> | [-> | Hn]]];
      [destruct Hs; discriminate.. | by apply not_elem_of_nil in Hn].
Defined.

Lemma search_queries_nodup_bounds_witness :
  NoDup (get_search_queries vocabulary_db) ∧
  (2 ≤ length (get_search_queries vocabulary_db))%nat ∧
  (length (get_search_queries vocabulary_db) ≤ 8)%nat.
Proof.
  destruct (search_queries_nodup_bounds vocabulary_db) as (Hnd & Hlow & Hup).
  split; [done|]. split; [done|]. apply (Hup _ eq_refl).
Defined.

Lemma search_queries_same_terms_witness :
  get_search_queries vocabulary_db ≡ₚ get_search_queries vocabulary_db'.
Proof.
  apply (search_queries_same_terms vocabulary_db vocabulary_db' _ _ eq_refl eq_refl).
  intros n. rewrite !elem_of_cons. tauto.
Defined.

Lemma is_valid_video_never_raises_witness :
  is_valid_video ascii_lower unpopular_video = Ok true ∨
  is_valid_video ascii_lower unpopular_video = Ok false.
Proof. apply (is_valid_video_never_raises ascii_lower unpopular_video). reflexivity. Defined.

Lemma no_keyword_by_scan title description :
  has_blacklisted BLACKLIST_KEYWORDS title = false →
  has_blacklisted BLACKLIST_KEYWORDS description = false →
  ∀ kw, kw ∈ BLACKLIST_KEYWORDS →
    ¬ is_substring kw title ∧ ¬ is_substring kw description.
Proof.
  intros Ht Hd kw Hkw. split; by eapply has_blacklisted_spec.
Qed.

Lemma first_failing_check_decides_witness :
  is_valid_video ascii_lower odd_title_video = Ok false ∧
  is_valid_video ascii_lower sponsored_video = Ok false ∧
  is_valid_video ascii_lower music_video = Ok false.
Proof.
  split; [|split].
  - apply (proj1 (first_failing_check_decides ascii_lower odd_title_video 60
                    eq_refl ltac:(lia))).
    right. exists 100. split; [reflexivity | lia].
  - apply (proj1 (proj2 (first_failing_check_decides ascii_lower sponsored_video 60
                           eq_refl ltac:(lia))
                    5000 (str "kimchi stew") [0xAD11; 0xACE0]
                    eq_refl ltac:(lia) eq_refl eq_refl)).
    exists [0xAD11; 0xACE0]. split; [left|]. right. by exists [], [].
  - apply (proj2 (proj2 (first_failing_check_decides ascii_lower music_video 60
                           eq_refl ltac:(lia))
                    5000 (str "kimchi stew") (str "home cooking")
                    eq_refl ltac:(lia) eq_refl eq_refl) [str "Music"]).
    + by apply no_keyword_by_scan.
    + reflexivity.
    + intros c ->%list_elem_of_singleton. unfold ALLOWED_CATEGORIES.
      rewrite !not_elem_of_cons. repeat split; try discriminate.
      apply not_elem_of_nil.
Defined.

Lemma first_allowed_label_decides_witness :
  is_valid_video ascii_lower
    (<["categories" := VList ([VStr (str "Howto")] ++ VStr (str "Cooking") :: [VInt 3])]>
       good_video)
  = is_valid_video ascii_lower (<["categories" := VList [VStr (str "Cooking")]]> good_video).
Proof.
  apply (first_allowed_label_decides ascii_lower good_video
           [VStr (str "Howto")] (str "Cooking") [VInt 3]).
  - reflexivity.
  - left.
Defined.

Lemma other_keys_ignored_witness :
  is_valid_video ascii_lower (<["id" := VList []]> good_video)
  = is_valid_video ascii_lower good_video ∧
  is_valid_video ascii_lower (delete "id" good_video)
  = is_valid_video ascii_lower good_video.
Proof.
  apply (other_keys_ignored ascii_lower good_video "id" (VList [])).
  unfold VALIDITY_KEYS. rewrite !not_elem_of_cons.
  repeat split; try discriminate. apply not_elem_of_nil.
Defined.

Lemma channel_outside_range_never_accepted_witness :
  is_valid_video ascii_lower jamo_video ≠ Ok true.
Proof.
  apply (channel_outside_range_never_accepted ascii_lower jamo_video [0x314B; 0x314B]).
  - reflexivity.
  - unfold HANGUL_FIRST, HANGUL_LAST. intros c. rewrite !elem_of_cons.
    intros [-> | [-> | H]]; [lia | lia | by apply not_elem_of_nil in H].
Defined.

Lemma categories_as_string_never_accepted_witness :
  is_valid_video ascii_lower flat_category_video ≠ Ok true.
Proof.
  apply (categories_as_string_never_accepted ascii_lower flat_category_video
           (str "Cooking")).
  - intros c. unfold ALLOWED_CATEGORIES, ascii_lower. rewrite !not_elem_of_cons.
    repeat split; try discriminate. apply not_elem_of_nil.
  - reflexivity.
Defined.

Lemma keywords_in_title_or_description_witness :
  (∃ title description,
     field_str good_video "title" = Some title ∧
     field_str good_video "description" = Some description ∧
     ∀ kw, kw ∈ BLACKLIST_KEYWORDS →
       ¬ is_substring kw title ∧ ¬ is_substring kw description) ∧
  is_valid_video ascii_lower good_video
  = is_valid_video ascii_lower
      (<["title" := VStr []]> (<["description" := VStr []]> good_video)).
Proof.
  destruct (keywords_in_title_or_description ascii_lower good_video) as [Hacc Hfree].
  split.
  - apply Hacc. reflexivity.
  - apply (Hfree (str "kimchi stew") (str "home cooking") eq_refl eq_refl).
    by apply no_keyword_by_scan.
Defined.

Lemma filter_valid_keeps_valid_witness :
  (∀ v, v ∈ [good_video; unpopular_video] →
        ∃ b, is_valid_video ascii_lower v = Ok b) ∧
  [good_video]
  = filter (λ v, is_valid_video ascii_lower v = Ok true) [good_video; unpopular_video].
Proof.
  apply (proj1 (filter_valid_keeps_valid ascii_lower
                  [good_video; unpopular_video] [good_video])).
  vm_cast_no_check (eq_refl (Ok [good_video])).
Defined.

Lemma batch_in_fetch_order_witness :
  [good_video; second_video]
  `sublist_of` fetched sample_extract (get_search_queries sample_db).
Proof.
  apply (batch_in_fetch_order ascii_lower sample_extract
           (get_crawled_video_ids sample_db)).
  vm_cast_no_check (eq_refl (Ok [good_video; second_video])).
Defined.

Lemma identifiers_after_collection_witness :
  (∀ k, k ∈ first_pass.1 ↔
        k ∈ get_crawled_video_ids sample_db ∨
        ∃ v, v ∈ fetched sample_extract (get_search_queries sample_db)
             ∧ truthy (video_id v) = true ∧ hash_key (video_id v) = Ok k) ∧
  (∀ k, (∃ v, v ∈ first_pass.2 ∧ hash_key (video_id v) = Ok k) ↔
        (k ∉ get_crawled_video_ids sample_db) ∧
        ∃ v, v ∈ fetched sample_extract (get_search_queries sample_db)
             ∧ truthy (video_id v) = true ∧ hash_key (video_id v) = Ok k).
Proof.
  apply (identifiers_after_collection ascii_lower sample_extract
           (get_crawled_video_ids sample_db) (get_search_queries sample_db)
           first_pass).
  vm_cast_no_check (eq_refl (Ok first_pass)).
Defined.

Lemma collection_raises_on_list_identifier_witness :
  ¬ (∃ st', collect bad_extract (∅, []) [query_korean] = Ok st') ∧
  (∀ e, collect bad_extract (∅, []) [query_korean] = Raise e → e = TypeError).
Proof.
  destruct (collection_raises_on_list_identifier bad_extract (∅, []) [query_korean])
    as [Hok Hraise].
  split; [|exact Hraise]. intros Hrun.
  apply (proj1 Hok Hrun list_id_video).
  - left.
  - by exists (VInt 1), [].
Defined.

Lemma collection_order_independent_witness :
  ∃ st', collect sample_extract (get_crawled_video_ids sample_db, [])
           (reverse (get_search_queries sample_db)) = Ok st'
         ∧ st'.1 = first_pass.1.
Proof.
  apply (collection_order_independent ascii_lower sample_extract
           (get_crawled_video_ids sample_db) (get_search_queries sample_db)
           (reverse (get_search_queries sample_db)) first_pass).
  - vm_cast_no_check (eq_refl (Ok first_pass)).
  - intros q. apply elem_of_reverse.
Defined.

Lemma run_completes_on_candidate_records_witness :
  ∃ batch, filtered_videos ascii_lower sample_extract ∅ [query_korean] = Ok batch.
Proof.
  apply (run_completes_on_candidate_records ascii_lower sample_extract ∅ [query_korean]).
  assert (fetched sample_extract [query_korean]
          = [good_video; unpopular_video; blank_video; good_video; second_video;
             known_video]) as ->.
  { vm_cast_no_check (eq_refl [good_video; unpopular_video; blank_video; good_video;
                               second_video; known_video]). }
  intros v. rewrite !elem_of_cons.
  intros [-> | [-> | [-> | [-> | [-> | [-> | H]]]]]]; try reflexivity.
  by apply not_elem_of_nil in H.
Defined.

(** The second record of the response is valid, but the first one has its
    identifier. *)
Example popular_again_valid : is_valid_video ascii_lower popular_again = Ok true.
Proof. vm_compute. reflexivity. Qed.

Lemma invalid_record_shadows_identifier_witness :
  filtered_videos ascii_lower shadow_extract ∅ [query_korean] = Ok [good_video] ∧
  ∀ v, v ∈ [good_video] → video_id v ≠ video_id popular_again.
Proof.
  assert (filtered_videos ascii_lower shadow_extract ∅ [query_korean]
          = Ok [good_video]) as Hrun.
  { vm_cast_no_check (eq_refl (Ok [good_video])). }
  split; [exact Hrun|].
  apply (invalid_record_shadows_identifier ascii_lower shadow_extract ∅
           [query_korean]
           ({[ KStr (str "v3"); KStr (str "v1") ]}, [unpopular_video; good_video])
           [good_video] unpopular_video).
  - vm_cast_no_check
      (eq_refl (Ok (({[ KStr (str "v3"); KStr (str "v1") ]} : gset key),
                    [unpopular_video; good_video]))).
  - exact Hrun.
  - left.
  - discriminate.
Defined.
